(** * utils/common_utils.py: text and JSON loading with encoding fallbacks

    A shallow embedding of [_read_text_with_fallback], [read_file] and
    [load_json_file], together with the parts of the Python runtime they
    call: the four codecs of the candidate list, the text-mode reader of
    [open], [str.strip] and [json.loads].

    Conventions.
    - [bytes] is Python's [bytes]: a list of [Byte.byte].
    - [str] is Python's [str]: a list of Unicode code points ([N]).
    - Messages and paths are Rocq strings.
    - Exceptions are values of [exn]; a computation returns [exn + A].
    - Every call of [open], [bytes.decode] and [json.loads] is recorded in
      a trace of [event]s, so that statements on what was attempted, and in
      which order, can be made. *)

From Stdlib Require Import NArith ZArith List String Ascii Bool Arith Lia.
From Stdlib.Strings Require Import Byte.
From Stdlib Require Import DecimalString.
Import ListNotations.

Local Open Scope string_scope.
Local Open Scope list_scope.
Local Open Scope N_scope.

Definition bytes := list byte.
Definition str := list N.

(** The code points of an ASCII literal. *)
Definition lit (s : string) : str := map Byte.to_N (list_byte_of_string s).

(** ** Exceptions *)

Inductive os_error :=
| FileNotFoundError
| PermissionError
| IsADirectoryError
| OtherOSError (errno : N).

Inductive exn :=
| OSError (kind : os_error) (filename : string)
| UnicodeDecodeError (encoding : string) (start stop : nat) (reason : string)
| JSONDecodeError (msg : string) (doc : str) (pos : nat)
| RecursionError (msg : string)
| ValueError (msg : string).

Definition is_UnicodeDecodeError (e : exn) : bool :=
  match e with UnicodeDecodeError _ _ _ _ => true | _ => false end.

Definition is_JSONDecodeError (e : exn) : bool :=
  match e with JSONDecodeError _ _ _ => true | _ => false end.

Definition is_OSError (e : exn) : bool :=
  match e with OSError _ _ => true | _ => false end.

(** ** Codecs *)

Module Codec.

Inductive encoding := utf_8 | utf_8_sig | cp1252 | latin_1.

Inductive error_handler := Strict | Replace.

(** U+FFFD REPLACEMENT CHARACTER, U+FEFF BYTE ORDER MARK. *)
Definition REPLACEMENT : N := 0xFFFD.
Definition BOM : N := 0xFEFF.
Definition BOM_UTF8 : bytes := [xef; xbb; xbf].

Definition is_continuation_byte (c : byte) : bool :=
  (0x80 <=? to_N c) && (to_N c <? 0xC0).

(** What the decoder does with an invalid range [start, start + len):
    raise under "strict", emit one U+FFFD and go on under "replace". *)
Definition on_error (errors : error_handler) (reason : string)
    (start len : nat) (continue : exn + str) : exn + str :=
  match errors with
  | Strict => inl (UnicodeDecodeError "utf-8" start (start + len) reason)
  | Replace =>
      match continue with
      | inl e => inl e
      | inr t => inr (REPLACEMENT :: t)
      end
  end.

Definition emit (ch : N) (continue : exn + str) : exn + str :=
  match continue with
  | inl e => inl e
  | inr t => inr (ch :: t)
  end.

(** The second byte of a three-byte sequence is rejected when it is no
    continuation byte, when it would give an overlong form (lead E0, second
    below A0) or a surrogate (lead ED, second from A0). *)
Definition bad_second3 (c c2 : byte) : bool :=
  negb (is_continuation_byte c2)
  || (if to_N c2 <? 0xA0 then to_N c =? 0xE0 else to_N c =? 0xED).

(** The same for four bytes: overlong (lead F0, second below 90) or beyond
    U+10FFFF (lead F4, second from 90). *)
Definition bad_second4 (c c2 : byte) : bool :=
  negb (is_continuation_byte c2)
  || (if to_N c2 <? 0x90 then to_N c =? 0xF0 else to_N c =? 0xF4).

Definition char2 (c c2 : byte) : N :=
  N.lor (N.shiftl (N.land (to_N c) 0x1F) 6) (N.land (to_N c2) 0x3F).

Definition char3 (c c2 c3 : byte) : N :=
  N.lor (N.shiftl (N.land (to_N c) 0x0F) 12)
    (N.lor (N.shiftl (N.land (to_N c2) 0x3F) 6) (N.land (to_N c3) 0x3F)).

Definition char4 (c c2 c3 c4 : byte) : N :=
  N.lor (N.shiftl (N.land (to_N c) 0x07) 18)
    (N.lor (N.shiftl (N.land (to_N c2) 0x3F) 12)
       (N.lor (N.shiftl (N.land (to_N c3) 0x3F) 6) (N.land (to_N c4) 0x3F))).

Definition invalid_start : string := "invalid start byte".
Definition invalid_continuation : string := "invalid continuation byte".
Definition unexpected_end : string := "unexpected end of data".

(** The UTF-8 decoder, on the input from index [pos] on.  An invalid start
    byte or second byte gives an error range of one byte, an invalid third
    byte one of two, an invalid fourth byte one of three; a sequence cut
    short by the end of the input gives the range up to the end. *)
Fixpoint utf_8_decode_from (errors : error_handler) (pos : nat) (s : bytes)
    {struct s} : exn + str :=
  match s with
  | [] => inr []
  | c :: s1 =>
      let ch := to_N c in
      if ch <? 0x80 then emit ch (utf_8_decode_from errors (pos + 1) s1)
      else if ch <? 0xC2 then
        on_error errors invalid_start pos 1 (utf_8_decode_from errors (pos + 1) s1)
      else if ch <? 0xE0 then
        match s1 with
        | [] => on_error errors unexpected_end pos 1 (inr [])
        | c2 :: s2 =>
            if negb (is_continuation_byte c2) then
              on_error errors invalid_continuation pos 1
                (utf_8_decode_from errors (pos + 1) s1)
            else emit (char2 c c2) (utf_8_decode_from errors (pos + 2) s2)
        end
      else if ch <? 0xF0 then
        match s1 with
        | [] => on_error errors unexpected_end pos 1 (inr [])
        | c2 :: s2 =>
            if bad_second3 c c2 then
              on_error errors invalid_continuation pos 1
                (utf_8_decode_from errors (pos + 1) s1)
            else
              match s2 with
              | [] => on_error errors unexpected_end pos 2 (inr [])
              | c3 :: s3 =>
                  if negb (is_continuation_byte c3) then
                    on_error errors invalid_continuation pos 2
                      (utf_8_decode_from errors (pos + 2) s2)
                  else emit (char3 c c2 c3) (utf_8_decode_from errors (pos + 3) s3)
              end
        end
      else if ch <? 0xF5 then
        match s1 with
        | [] => on_error errors unexpected_end pos 1 (inr [])
        | c2 :: s2 =>
            if bad_second4 c c2 then
              on_error errors invalid_continuation pos 1
                (utf_8_decode_from errors (pos + 1) s1)
            else
              match s2 with
              | [] => on_error errors unexpected_end pos 2 (inr [])
              | c3 :: s3 =>
                  if negb (is_continuation_byte c3) then
                    on_error errors invalid_continuation pos 2
                      (utf_8_decode_from errors (pos + 2) s2)
                  else
                    match s3 with
                    | [] => on_error errors unexpected_end pos 3 (inr [])
                    | c4 :: s4 =>
                        if negb (is_continuation_byte c4) then
                          on_error errors invalid_continuation pos 3
                            (utf_8_decode_from errors (pos + 3) s3)
                        else
                          emit (char4 c c2 c3 c4)
                            (utf_8_decode_from errors (pos + 4) s4)
                    end
              end
        end
      else
        on_error errors invalid_start pos 1 (utf_8_decode_from errors (pos + 1) s1)
  end.

(** [codecs.utf_8_decode(input, errors, final=True)]. *)
Definition utf_8_decode (errors : error_handler) (input : bytes) : exn + str :=
  utf_8_decode_from errors 0 input.

Definition starts_with_bom (input : bytes) : bool :=
  match input with
  | b0 :: b1 :: b2 :: _ =>
      Byte.eqb b0 xef && Byte.eqb b1 xbb && Byte.eqb b2 xbf
  | _ => false
  end.

(** [encodings.utf_8_sig.decode]: one leading mark is dropped, the rest is
    handed to the UTF-8 decoder (whose errors then count from the byte
    after the mark and name "utf-8"). *)
Definition utf_8_sig_decode (errors : error_handler) (input : bytes) : exn + str :=
  if starts_with_bom input then utf_8_decode errors (skipn 3 input)
  else utf_8_decode errors input.

(** [bytes.startswith] on [BOM_UTF8], for an input of fewer than three
    bytes. *)
Definition bom_startswith (input : bytes) : bool :=
  match input with
  | [] => true
  | [b0] => Byte.eqb b0 xef
  | [b0; b1] => Byte.eqb b0 xef && Byte.eqb b1 xbb
  | _ => false
  end.

(** [encodings.utf_8_sig.IncrementalDecoder], run once on the whole input
    with [final=True], as a text-mode [read()] does: an input of fewer than
    three bytes that is a prefix of the mark is held back in the decoder's
    buffer and nothing is decoded. *)
Definition utf_8_sig_incremental (errors : error_handler) (input : bytes) : exn + str :=
  if (List.length input <? 3)%nat then
    if bom_startswith input then inr []
    else utf_8_decode errors input
  else if starts_with_bom input then utf_8_decode errors (skipn 3 input)
  else utf_8_decode errors input.

(** The decoding table of [encodings/cp1252.py]; [None] is the table's
    U+FFFE, "undefined". *)
Definition cp1252_table (c : byte) : option N :=
  match c with
  | x80 => Some 0x20AC | x81 => None        | x82 => Some 0x201A | x83 => Some 0x0192
  | x84 => Some 0x201E | x85 => Some 0x2026 | x86 => Some 0x2020 | x87 => Some 0x2021
  | x88 => Some 0x02C6 | x89 => Some 0x2030 | x8a => Some 0x0160 | x8b => Some 0x2039
  | x8c => Some 0x0152 | x8d => None        | x8e => Some 0x017D | x8f => None
  | x90 => None        | x91 => Some 0x2018 | x92 => Some 0x2019 | x93 => Some 0x201C
  | x94 => Some 0x201D | x95 => Some 0x2022 | x96 => Some 0x2013 | x97 => Some 0x2014
  | x98 => Some 0x02DC | x99 => Some 0x2122 | x9a => Some 0x0161 | x9b => Some 0x203A
  | x9c => Some 0x0153 | x9d => None        | x9e => Some 0x017E | x9f => Some 0x0178
  | _ => Some (to_N c)
  end.

(** [codecs.charmap_decode] with the cp1252 table. *)
Fixpoint charmap_decode_from (errors : error_handler) (pos : nat) (s : bytes)
    : exn + str :=
  match s with
  | [] => inr []
  | c :: s1 =>
      match cp1252_table c with
      | Some ch => emit ch (charmap_decode_from errors (pos + 1) s1)
      | None =>
          match errors with
          | Strict =>
              inl (UnicodeDecodeError "charmap" pos (pos + 1)
                     "character maps to <undefined>")
          | Replace => emit REPLACEMENT (charmap_decode_from errors (pos + 1) s1)
          end
      end
  end.

Definition cp1252_decode (errors : error_handler) (input : bytes) : exn + str :=
  charmap_decode_from errors 0 input.

(** Latin-1 maps every byte to the code point of the same value. *)
Definition latin_1_decode (input : bytes) : exn + str :=
  inr (map to_N input).

(** [data.decode(enc, errors)]. *)
Definition decode (enc : encoding) (errors : error_handler) (data : bytes)
    : exn + str :=
  match enc with
  | utf_8 => utf_8_decode errors data
  | utf_8_sig => utf_8_sig_decode errors data
  | cp1252 => cp1252_decode errors data
  | latin_1 => latin_1_decode data
  end.

(** The codec's incremental decoder fed the whole file with [final=True]. *)
Definition incremental_decode (enc : encoding) (errors : error_handler)
    (data : bytes) : exn + str :=
  match enc with
  | utf_8_sig => utf_8_sig_incremental errors data
  | _ => decode enc errors data
  end.

End Codec.

(** ** Text-mode reading and [str.strip] *)

Module TextIO.

Definition CR : N := 13.
Definition LF : N := 10.

(** Universal newlines ([newline=None] on reading): "\r\n" and a lone "\r"
    both become "\n". *)
Fixpoint universal_newlines (t : str) : str :=
  match t with
  | [] => []
  | c :: t1 =>
      if c =? CR then
        match t1 with
        | c2 :: t2 =>
            if c2 =? LF then LF :: universal_newlines t2
            else LF :: universal_newlines t1
        | [] => [LF]
        end
      else c :: universal_newlines t1
  end.

(** [f.read()] on a file opened with ["r"], [encoding=enc], [errors]. *)
Definition read_text (enc : Codec.encoding) (errors : Codec.error_handler)
    (data : bytes) : exn + str :=
  match Codec.incremental_decode enc errors data with
  | inl e => inl e
  | inr t => inr (universal_newlines t)
  end.

(** [str.isspace] on one code point (the Unicode White_Space characters
    and the four information separators 1C to 1F). *)
Definition isspace (c : N) : bool :=
  ((0x09 <=? c) && (c <=? 0x0D))
  || ((0x1C <=? c) && (c <=? 0x20))
  || (c =? 0x85) || (c =? 0xA0) || (c =? 0x1680)
  || ((0x2000 <=? c) && (c <=? 0x200A))
  || (c =? 0x2028) || (c =? 0x2029) || (c =? 0x202F) || (c =? 0x205F)
  || (c =? 0x3000).

Fixpoint lstrip (t : str) : str :=
  match t with
  | [] => []
  | c :: t1 => if isspace c then lstrip t1 else t
  end.

Definition rstrip (t : str) : str := rev (lstrip (rev t)).

(** [s.strip()] with no argument. *)
Definition strip (t : str) : str := rstrip (lstrip t).

End TextIO.

(** ** [json.loads] *)

Module Json.

(** The values [json.loads] builds.  An integer literal becomes a Python
    [int]; a literal with a fraction or an exponent, and the constants
    [NaN], [Infinity] and [-Infinity], become a [float], kept here as the
    literal it was read from.  A [dict] keeps its keys in insertion order. *)
#[local] Unset Elimination Schemes.
Inductive json :=
| JNull
| JBool (b : bool)
| JInt (n : Z)
| JFloat (literal : str)
| JStr (s : str)
| JList (items : list json)
| JDict (pairs : list (str * json)).
#[local] Set Elimination Schemes.

(** The two limits of the runtime a scan can run into: the recursion
    depth, exceeded [where_] ("while decoding a JSON array ..."), and the
    number of digits [int] converts, exceeded by a literal of [digits]
    digits. *)
Inductive limit :=
| RecursionLimit (where_ : string)
| DigitLimit (digits : nat).

Definition MAX_STR_DIGITS : nat := 4300.

(** The decimal numeral of a number. *)
Definition decimal (n : nat) : string := NilZero.string_of_uint (Nat.to_uint n).

(** The exception raised at a limit: [RecursionError] and [ValueError],
    with the messages of the runtime. *)
Definition limit_error (l : limit) : exn :=
  match l with
  | RecursionLimit where_ =>
      RecursionError ("maximum recursion depth exceeded" ++ where_)%string
  | DigitLimit digits =>
      ValueError
        ("Exceeds the limit (4300 digits) for integer string conversion: value has "
           ++ decimal digits
           ++ " digits; use sys.set_int_max_str_digits() to increase the limit")%string
  end.

(** What a call [scan_once(s, idx)] of the scanner does: return a value and
    the index after it, raise [StopIteration(idx)] (no value starts here),
    raise a [JSONDecodeError] of its own with a message and a position
    (the document is always [s]), or run into a limit of the runtime and
    raise [RecursionError] or [ValueError]. *)
Inductive scan_result :=
| Scanned (obj : json) (end_ : nat)
| StopIteration (idx : nat)
| Raised (msg : string) (pos : nat)
| LimitExceeded (l : limit).

Definition scanner := str -> nat -> scan_result.

Definition is_whitespace (c : N) : bool :=
  (c =? 32) || (c =? 9) || (c =? 10) || (c =? 13).

Fixpoint skip_whitespace (rest : str) (idx : nat) : str * nat :=
  match rest with
  | c :: r => if is_whitespace c then skip_whitespace r (S idx) else (rest, idx)
  | [] => (rest, idx)
  end.

(** [WHITESPACE.match(s, idx).end()]. *)
Definition whitespace_end (s : str) (idx : nat) : nat :=
  snd (skip_whitespace (skipn idx s) idx).

Definition startswith_bom (s : str) : bool :=
  match s with
  | c :: _ => c =? Codec.BOM
  | [] => false
  end.

Section Decoder.

Variable scan_once : scanner.

(** [JSONDecoder.raw_decode]. *)
Definition raw_decode (s : str) (idx : nat) : exn + (json * nat) :=
  match scan_once s idx with
  | Scanned obj end_ => inr (obj, end_)
  | StopIteration i => inl (JSONDecodeError "Expecting value" s i)
  | Raised msg pos => inl (JSONDecodeError msg s pos)
  | LimitExceeded l => inl (limit_error l)
  end.

(** [JSONDecoder.decode]. *)
Definition decode (s : str) : exn + json :=
  match raw_decode s (whitespace_end s 0) with
  | inl e => inl e
  | inr (obj, end_) =>
      let end' := whitespace_end s end_ in
      if Nat.eqb end' (List.length s) then inr obj
      else inl (JSONDecodeError "Extra data" s end')
  end.

(** [json.loads(s)] for a [str] argument and no keyword. *)
Definition loads (s : str) : exn + json :=
  if startswith_bom s then
    inl (JSONDecodeError "Unexpected UTF-8 BOM (decode using utf-8-sig)" s 0)
  else decode s.

End Decoder.

(** *** The scanner of the [json] module

    A reference instance of [scanner], following [scan_once], the number
    matcher, [scanstring] and the object and array parsers of the
    runtime's scanner, with their messages and positions.  The functions
    below work on the text from index [idx] on ([rest]) and carry [idx]
    along. *)

Definition QUOTE : N := 34.
Definition BACKSLASH : N := 92.

Definition is_digit (c : N) : bool := (48 <=? c) && (c <=? 57).

Definition hex_digit (c : N) : option N :=
  if (48 <=? c) && (c <=? 57) then Some (c - 48)
  else if (97 <=? c) && (c <=? 102) then Some (c - 97 + 10)
  else if (65 <=? c) && (c <=? 70) then Some (c - 65 + 10)
  else None.

(** Four hexadecimal digits, most significant first. *)
Definition hex4 (h1 h2 h3 h4 : N) : option N :=
  match hex_digit h1, hex_digit h2, hex_digit h3, hex_digit h4 with
  | Some a, Some b, Some c, Some d => Some (((a * 16 + b) * 16 + c) * 16 + d)
  | _, _, _, _ => None
  end.

Definition is_high_surrogate (c : N) : bool := (0xD800 <=? c) && (c <=? 0xDBFF).
Definition is_low_surrogate (c : N) : bool := (0xDC00 <=? c) && (c <=? 0xDFFF).
Definition join_surrogates (hi lo : N) : N :=
  0x10000 + (N.lor (N.shiftl (N.land hi 0x3FF) 10) (N.land lo 0x3FF)).

(** The character a one-letter escape stands for. *)
Definition simple_escape (c : N) : option N :=
  if c =? QUOTE then Some QUOTE
  else if c =? BACKSLASH then Some BACKSLASH
  else if c =? 47 then Some 47          (* / *)
  else if c =? 98 then Some 8           (* b *)
  else if c =? 102 then Some 12         (* f *)
  else if c =? 110 then Some 10         (* n *)
  else if c =? 114 then Some 13         (* r *)
  else if c =? 116 then Some 9          (* t *)
  else None.

Inductive string_result :=
| StrOk (s : str) (rest : str) (end_ : nat)
| StrError (msg : string) (pos : nat).

Definition str_cons (c : N) (r : string_result) : string_result :=
  match r with
  | StrOk s rest e => StrOk (c :: s) rest e
  | StrError m p => StrError m p
  end.

Definition unterminated : string := "Unterminated string starting at".
Definition invalid_uXXXX : string := "Invalid \uXXXX escape".

(** [scanstring(s, end, strict=True)]: [rest] is the text after the opening
    quote, at index [idx]; [begin] is the index of the opening quote. *)
Fixpoint scanstring (fuel : nat) (begin : nat) (rest : str) (idx : nat)
    : string_result :=
  match fuel with
  | O => StrError unterminated begin
  | S fuel' =>
      match rest with
      | [] => StrError unterminated begin
      | c :: r1 =>
          if c =? QUOTE then StrOk [] r1 (idx + 1)
          else if c =? BACKSLASH then
            match r1 with
            | [] => StrError unterminated begin
            | e :: r2 =>
                if e =? 117 (* u *) then
                  match r2 with
                  | h1 :: h2 :: h3 :: h4 :: (_ :: _) as r6 =>
                      match hex4 h1 h2 h3 h4 with
                      | None => StrError invalid_uXXXX (idx + 1)
                      | Some hi =>
                          match r6 with
                          | b :: u :: g1 :: g2 :: g3 :: g4 :: (_ :: _) as r12 =>
                              if is_high_surrogate hi && (b =? BACKSLASH) && (u =? 117)
                              then
                                match hex4 g1 g2 g3 g4 with
                                | None => StrError invalid_uXXXX (idx + 7)
                                | Some lo =>
                                    if is_low_surrogate lo then
                                      str_cons (join_surrogates hi lo)
                                        (scanstring fuel' begin r12 (idx + 12))
                                    else
                                      str_cons hi (scanstring fuel' begin r6 (idx + 6))
                                end
                              else str_cons hi (scanstring fuel' begin r6 (idx + 6))
                          | _ => str_cons hi (scanstring fuel' begin r6 (idx + 6))
                          end
                      end
                  | _ => StrError invalid_uXXXX (idx + 1)
                  end
                else
                  match simple_escape e with
                  | Some ch => str_cons ch (scanstring fuel' begin r2 (idx + 2))
                  | None => StrError "Invalid \escape" idx
                  end
            end
          else if c <=? 0x1F then StrError "Invalid control character at" idx
          else str_cons c (scanstring fuel' begin r1 (idx + 1))
      end
  end.

(** The longest prefix of digits. *)
Fixpoint span_digits (rest : str) : str * str :=
  match rest with
  | c :: r =>
      if is_digit c then let (ds, r') := span_digits r in (c :: ds, r')
      else ([], rest)
  | [] => ([], [])
  end.

(** [1-9][0-9]* or a single 0. *)
Definition match_integer (rest : str) : option (str * str) :=
  match rest with
  | c :: r =>
      if c =? 48 then Some ([c], r)
      else if is_digit c then let (ds, r') := span_digits r in Some (c :: ds, r')
      else None
  | [] => None
  end.

(** A dot followed by at least one digit. *)
Definition match_frac (rest : str) : option (str * str) :=
  match rest with
  | c :: r =>
      if c =? 46 then
        match span_digits r with
        | ([], _) => None
        | (ds, r') => Some (c :: ds, r')
        end
      else None
  | [] => None
  end.

(** e or E, an optional sign, at least one digit. *)
Definition match_exp (rest : str) : option (str * str) :=
  match rest with
  | c :: r =>
      if (c =? 101) || (c =? 69) then
        match r with
        | sg :: r1 =>
            if (sg =? 43) || (sg =? 45) then
              match span_digits r1 with
              | ([], _) => None
              | (ds, r') => Some (c :: sg :: ds, r')
              end
            else
              match span_digits r with
              | ([], _) => None
              | (ds, r') => Some (c :: ds, r')
              end
        | [] => None
        end
      else None
  | [] => None
  end.

Definition int_of_digits (ds : str) : Z :=
  fold_left (fun acc c => (acc * 10 + Z.of_N (c - 48))%Z) ds 0%Z.

Inductive number_result :=
| NumOk (v : json) (rest : str)
| NumNone
| NumLimit (digits : nat).

(** The number matcher: the value and the text after it.  A literal with
    a fraction or an exponent is a [float]; one without is converted by
    [int], which refuses more than 4300 digits. *)
Definition match_number (rest : str) : number_result :=
  let (neg, body) :=
    match rest with
    | c :: r => if c =? 45 then (true, r) else (false, rest)
    | [] => (false, rest)
    end in
  match match_integer body with
  | None => NumNone
  | Some (ds, r1) =>
      let sign : str := if neg then [45] else [] in
      match match_frac r1, match_exp r1 with
      | Some (fs, r2), _ =>
          match match_exp r2 with
          | Some (es, r3) => NumOk (JFloat (sign ++ ds ++ fs ++ es)) r3
          | None => NumOk (JFloat (sign ++ ds ++ fs)) r2
          end
      | None, Some (es, r3) => NumOk (JFloat (sign ++ ds ++ es)) r3
      | None, None =>
          if (MAX_STR_DIGITS <? List.length ds)%nat then NumLimit (List.length ds)
          else NumOk (JInt (if neg then - int_of_digits ds else int_of_digits ds)%Z) r1
      end
  end.

Fixpoint str_eqb (a b : str) : bool :=
  match a, b with
  | [], [] => true
  | x :: a', y :: b' => (x =? y) && str_eqb a' b'
  | _, _ => false
  end.

(** [s[idx:].startswith(word)], giving the text after the word. *)
Fixpoint after_prefix (word rest : str) : option str :=
  match word, rest with
  | [], _ => Some rest
  | w :: word', c :: rest' => if w =? c then after_prefix word' rest' else None
  | _ :: _, [] => None
  end.

(** [d[key] = value] on an insertion-ordered dict. *)
Fixpoint dict_setitem (d : list (str * json)) (key : str) (value : json)
    : list (str * json) :=
  match d with
  | [] => [(key, value)]
  | (k, v) :: d' =>
      if str_eqb k key then (k, value) :: d'
      else (k, v) :: dict_setitem d' key value
  end.

Inductive value_result :=
| ValOk (obj : json) (rest : str) (end_ : nat)
| ValStop (idx : nat)
| ValError (msg : string) (pos : nat)
| ValLimit (l : limit).

Definition in_object : string := " while decoding a JSON object from a unicode string".
Definition in_array : string := " while decoding a JSON array from a unicode string".

Definition expecting_name : string :=
  "Expecting property name enclosed in double quotes".

(** The constants, tried before the number matcher. *)
Definition scan_constant (rest : str) (idx : nat) : option value_result :=
  let try_word (w : string) (v : json) :=
    match after_prefix (lit w) rest with
    | Some r => Some (ValOk v r (idx + String.length w))
    | None => None
    end in
  match try_word "null"%string JNull with Some r => Some r | None =>
  match try_word "true"%string (JBool true) with Some r => Some r | None =>
  match try_word "false"%string (JBool false) with Some r => Some r | None =>
  match try_word "NaN"%string (JFloat (lit "NaN")) with Some r => Some r | None =>
  match try_word "Infinity"%string (JFloat (lit "Infinity")) with Some r => Some r | None =>
  try_word "-Infinity"%string (JFloat (lit "-Infinity"))
  end end end end end.

Definition calling_object : string := " while calling a Python object".

(** [raise_errmsg(msg, s, pos)] with [depth] levels of recursion left.
    The scanner builds the [JSONDecodeError] by calling the class, whose
    [__init__] is Python code that calls a method in turn: three levels.
    With fewer left the call ends in the [RecursionError] of the level
    that is missing. *)
Definition raise_errmsg (depth : nat) (msg : string) (pos : nat) : value_result :=
  match depth with
  | 0%nat => ValLimit (RecursionLimit calling_object)
  | 1%nat => ValLimit (RecursionLimit "")
  | 2%nat => ValLimit (RecursionLimit calling_object)
  | _ => ValError msg pos
  end.

(** [scan_once] on the text from [idx] on, with the array loop
    ([scan_items], entered before each item) and the object loop
    ([scan_pairs], entered before each key).  [depth] is the recursion
    depth left: an object or an array takes one level, checked when its
    opening bracket is met, and an error is raised through [raise_errmsg]
    with the levels left where it is met.  Every call on a nested value
    follows an opening bracket, so the length of the text bounds the calls
    ([fuel]). *)
Fixpoint scan_value (fuel : nat) (depth : nat) (rest : str) (idx : nat)
    : value_result :=
  match fuel with
  | O => ValStop idx
  | S fuel' =>
      match rest with
      | [] => ValStop idx
      | c :: r1 =>
          if c =? QUOTE then
            match scanstring (List.length r1) idx r1 (idx + 1) with
            | StrOk s r e => ValOk (JStr s) r e
            | StrError m p => raise_errmsg depth m p
            end
          else if c =? 123 (* { *) then
            match depth with
            | O => ValLimit (RecursionLimit in_object)
            | S depth' =>
                let (r2, i2) := skip_whitespace r1 (idx + 1) in
                match r2 with
                | c2 :: r3 =>
                    if c2 =? 125 (* } *) then ValOk (JDict []) r3 (i2 + 1)
                    else scan_pairs fuel' depth' [] r2 i2
                | [] => scan_pairs fuel' depth' [] r2 i2
                end
            end
          else if c =? 91 (* [ *) then
            match depth with
            | O => ValLimit (RecursionLimit in_array)
            | S depth' =>
                let (r2, i2) := skip_whitespace r1 (idx + 1) in
                match r2 with
                | c2 :: r3 =>
                    if c2 =? 93 (* ] *) then ValOk (JList []) r3 (i2 + 1)
                    else scan_items fuel' depth' [] r2 i2
                | [] => scan_items fuel' depth' [] r2 i2
                end
            end
          else
            match scan_constant rest idx with
            | Some r => r
            | None =>
                match match_number rest with
                | NumOk v r =>
                    ValOk v r (idx + (List.length rest - List.length r))
                | NumNone => ValStop idx
                | NumLimit digits => ValLimit (DigitLimit digits)
                end
            end
      end
  end

with scan_items (fuel : nat) (depth : nat) (acc : list json) (rest : str)
    (idx : nat) : value_result :=
  match fuel with
  | O => ValStop idx
  | S fuel' =>
      match scan_value fuel' depth rest idx with
      | ValOk v r1 i1 =>
          let (r2, i2) := skip_whitespace r1 i1 in
          match r2 with
          | c :: r3 =>
              if c =? 93 (* ] *) then ValOk (JList (acc ++ [v])) r3 (i2 + 1)
              else if c =? 44 (* , *) then
                let (r4, i4) := skip_whitespace r3 (i2 + 1) in
                scan_items fuel' depth (acc ++ [v]) r4 i4
              else raise_errmsg depth "Expecting ',' delimiter" i2
          | [] => raise_errmsg depth "Expecting ',' delimiter" i2
          end
      | other => other
      end
  end

with scan_pairs (fuel : nat) (depth : nat) (acc : list (str * json))
    (rest : str) (idx : nat) : value_result :=
  match fuel with
  | O => ValStop idx
  | S fuel' =>
      match rest with
      | c :: r1 =>
          if c =? QUOTE then
            match scanstring (List.length r1) idx r1 (idx + 1) with
            | StrError m p => raise_errmsg depth m p
            | StrOk key r2 i2 =>
                let (r3, i3) := skip_whitespace r2 i2 in
                match r3 with
                | c3 :: r4 =>
                    if c3 =? 58 (* : *) then
                      let (r5, i5) := skip_whitespace r4 (i3 + 1) in
                      match scan_value fuel' depth r5 i5 with
                      | ValOk v r6 i6 =>
                          let (r7, i7) := skip_whitespace r6 i6 in
                          match r7 with
                          | c7 :: r8 =>
                              if c7 =? 125 (* } *) then
                                ValOk (JDict (dict_setitem acc key v)) r8 (i7 + 1)
                              else if c7 =? 44 (* , *) then
                                let (r9, i9) := skip_whitespace r8 (i7 + 1) in
                                scan_pairs fuel' depth (dict_setitem acc key v) r9 i9
                              else raise_errmsg depth "Expecting ',' delimiter" i7
                          | [] => raise_errmsg depth "Expecting ',' delimiter" i7
                          end
                      | other => other
                      end
                    else raise_errmsg depth "Expecting ':' delimiter" i3
                | [] => raise_errmsg depth "Expecting ':' delimiter" i3
                end
            end
          else raise_errmsg depth expecting_name idx
      | [] => raise_errmsg depth expecting_name idx
      end
  end.

(** [scan_once(s, idx)] of the [json] module's scanner, entered with
    [recursion_remaining] levels of recursion left. *)
Definition py_scanner (recursion_remaining : nat) : scanner := fun s idx =>
  let rest := skipn idx s in
  match scan_value (2 * List.length rest + 2) recursion_remaining rest idx with
  | ValOk obj _ end_ => Scanned obj end_
  | ValStop i => StopIteration i
  | ValError msg pos => Raised msg pos
  | ValLimit l => LimitExceeded l
  end.

(** The levels left to [json.loads] when [load_json_file] is called from
    the top level of a script, under the default recursion limit of 1000:
    994 nested arrays parse, 995 do not. *)
Definition TOP_LEVEL_RECURSION : nat := 994.

Definition py_scan_once : scanner := py_scanner TOP_LEVEL_RECURSION.

End Json.

(** ** The module [utils/common_utils.py] *)

Module CommonUtils.

Import Codec.

(** *** The environment: files, and what a call leaves in the trace *)

(** What [open] finds at a path: the reason it cannot be opened, or the
    bytes of the file. *)
Definition filesystem := string -> os_error + bytes.

Inductive open_mode :=
| ModeBinary                                             (* "rb" *)
| ModeText (enc : encoding) (errors : error_handler).    (* "r", encoding, errors *)

Inductive event :=
| EvOpen (file_path : string) (mode : open_mode)   (* a call of open() *)
| EvDecode (enc : encoding) (errors : error_handler) (* a call of bytes.decode *)
| EvLoads (text : str).                            (* a call of json.loads *)

(** *** Computations: read the file system, log events, raise or return *)

Definition M (A : Type) : Type := filesystem -> list event * (exn + A).

Definition ret {A} (a : A) : M A := fun _ => ([], inr a).

Definition raise {A} (e : exn) : M A := fun _ => ([], inl e).

Definition bind {A B} (m : M A) (k : A -> M B) : M B := fun fs =>
  match m fs with
  | (t, inl e) => (t, inl e)
  | (t, inr a) => let (t', r) := k a fs in (t ++ t', r)
  end.

Notation "x <- m ;; k" := (bind m (fun x => k))
  (at level 61, m at next level, right associativity).

Definition log (ev : event) : M unit := fun _ => ([ev], inr tt).

Definition lift {A} (r : exn + A) : M A := fun _ => ([], r).

(** [try: body  except ...: ...]: the handler says, for the exception
    raised, what the matching clause does, or [None] when no clause
    matches and the exception goes on to the caller. *)
Definition try_except {A} (body : M A) (handler : exn -> option (M A)) : M A :=
  fun fs =>
    match body fs with
    | (t, inl e) =>
        match handler e with
        | Some h => let (t', r) := h fs in (t ++ t', r)
        | None => (t, inl e)
        end
    | (t, inr a) => (t, inr a)
    end.

Definition trace {A} (o : list event * (exn + A)) : list event := fst o.
Definition result {A} (o : list event * (exn + A)) : exn + A := snd o.

(** *** File objects *)

Record text_file := { tf_encoding : encoding; tf_errors : error_handler; tf_raw : bytes }.
Record binary_file := { bf_raw : bytes }.

Definition open_raw (file_path : string) (mode : open_mode) : M bytes :=
  _ <- log (EvOpen file_path mode) ;;
  fun fs =>
    match fs file_path with
    | inl kind => ([], inl (OSError kind file_path))
    | inr data => ([], inr data)
    end.

(** [open(file_path, "r", encoding=enc, errors=errors)]. *)
Definition open_text (file_path : string) (enc : encoding) (errors : error_handler)
    : M text_file :=
  raw <- open_raw file_path (ModeText enc errors) ;;
  ret {| tf_encoding := enc; tf_errors := errors; tf_raw := raw |}.

(** [open(file_path, "rb")]. *)
Definition open_binary (file_path : string) : M binary_file :=
  raw <- open_raw file_path ModeBinary ;;
  ret {| bf_raw := raw |}.

(** [f.read()] on a text file and on a binary one. *)
Definition read_str (f : text_file) : M str :=
  lift (TextIO.read_text (tf_encoding f) (tf_errors f) (tf_raw f)).

Definition read_bytes (f : binary_file) : M bytes := ret (bf_raw f).

(** [data.decode(enc, errors)]. *)
Definition bytes_decode (data : bytes) (enc : encoding) (errors : error_handler)
    : M str :=
  _ <- log (EvDecode enc errors) ;;
  lift (decode enc errors data).

(** How a [for] loop with a [return] in its body ends. *)
Inductive loop_result (A S : Type) :=
| Return (v : A)
| Exhausted (s : S).
Arguments Return {A S} v.
Arguments Exhausted {A S} s.

(** *** The source *)

(** The list both functions bind to their local [encodings]. *)
Definition encodings : list encoding := [utf_8; utf_8_sig; cp1252; latin_1].

(** The [for enc in encodings] loop of [_read_text_with_fallback]. *)
Fixpoint read_text_loop (file_path : string) (encs : list encoding)
    : M (loop_result str unit) :=
  match encs with
  | [] => ret (Exhausted tt)
  | enc :: rest =>
      try_except
        (f <- open_text file_path enc Strict ;;
         content <- read_str f ;;
         ret (Return content))
        (fun e =>
           if is_UnicodeDecodeError e then Some (read_text_loop file_path rest)
           else None)
  end.

Definition _read_text_with_fallback (file_path : string) : M str :=
  r <- read_text_loop file_path encodings ;;
  match r with
  | Return content => ret content
  | Exhausted _ =>
      (* Last resort: replace undecodable bytes *)
      f <- open_text file_path utf_8 Replace ;;
      read_str f
  end.

Definition read_file (file_path : string) : M str :=
  content <- _read_text_with_fallback file_path ;;
  ret (TextIO.strip content).

Definition failed_prefix : string := "Failed to decode/parse JSON from ".

(** The f-string of the final error. *)
Definition failed_message (file_path msg : string) : string :=
  (failed_prefix ++ file_path ++ ": " ++ msg)%string.

Section Loader.

Variable scan_once : Json.scanner.

(** [json.loads(text)]. *)
Definition json_loads (text : str) : M Json.json :=
  _ <- log (EvLoads text) ;;
  lift (Json.loads scan_once text).

(** The [for enc in encodings] loop of [load_json_file]; [last_error] is
    the variable of that name. *)
Fixpoint load_json_loop (data : bytes) (encs : list encoding)
    (last_error : option exn) : M (loop_result Json.json (option exn)) :=
  match encs with
  | [] => ret (Exhausted last_error)
  | enc :: rest =>
      try_except
        (text <- bytes_decode data enc Strict ;;
         v <- json_loads text ;;
         ret (Return v))
        (fun e =>
           if is_UnicodeDecodeError e || is_JSONDecodeError e
           then Some (load_json_loop data rest (Some e))
           else None)
  end.

Definition load_json_file (file_path : string) : M Json.json :=
  (* Read raw bytes to control decoding attempts *)
  f <- open_binary file_path ;;
  data <- read_bytes f ;;
  r <- load_json_loop data encodings None ;;
  match r with
  | Return v => ret v
  | Exhausted _ =>
      (* Final attempt: decode with replacement and try to parse *)
      try_except
        (text <- bytes_decode data utf_8 Replace ;;
         json_loads text)
        (fun e =>
           match e with
           | JSONDecodeError msg doc pos =>
               Some (raise (JSONDecodeError (failed_message file_path msg) doc pos))
           | _ => None
           end)
  end.

End Loader.

End CommonUtils.

(** * Vocabulary of the statements *)

Import Codec TextIO CommonUtils.

(** ** Reading a trace *)

(** The number of calls of [open]. *)
Definition opens (t : list event) : nat :=
  List.length (filter (fun ev => match ev with EvOpen _ _ => true | _ => false end) t).

(** The modes of the calls of [open], in order. *)
Fixpoint open_modes (t : list event) : list open_mode :=
  match t with
  | [] => []
  | EvOpen _ mode :: t' => mode :: open_modes t'
  | _ :: t' => open_modes t'
  end.

(** The decoding attempts, in order. *)
Fixpoint decode_attempts (t : list event) : list (encoding * error_handler) :=
  match t with
  | [] => []
  | EvDecode enc errors :: t' => (enc, errors) :: decode_attempts t'
  | _ :: t' => decode_attempts t'
  end.

(** The texts handed to [json.loads], in order. *)
Fixpoint parsed_texts (t : list event) : list str :=
  match t with
  | [] => []
  | EvLoads text :: t' => text :: parsed_texts t'
  | _ :: t' => parsed_texts t'
  end.

(** One candidate of the loader's loop, without the bookkeeping: decode,
    then parse. *)
Definition attempt (scan_once : Json.scanner) (data : bytes) (enc : encoding)
    : exn + Json.json :=
  match decode enc Strict data with
  | inl e => inl e
  | inr text => Json.loads scan_once text
  end.

Definition succeeded {A} (r : exn + A) : bool :=
  match r with inr _ => true | inl _ => false end.

(** The five attempts of a call of the loader that tries everything. *)
Definition all_attempts : list (encoding * error_handler) :=
  map (fun enc => (enc, Strict)) encodings ++ [(utf_8, Replace)].

(** ** Results of decoders, texts, loops *)

(** A decoder's result that, when it is an exception, is a
    [UnicodeDecodeError]. *)
Definition raises_only_unicode (r : exn + str) : Prop :=
  forall e, r = inl e -> is_UnicodeDecodeError e = true.

(** A decoder's result that is a text. *)
Definition returns_text (r : exn + str) : Prop := exists t, r = inr t.

(** Walks through the branches of [utf_8_decode_from] for a property [P] of
    results that [emit] and [on_error] preserve; [IH] closes the recursive
    calls. *)
Ltac utf8_branches P emit_lemma error_lemma base IH :=
  repeat
    match goal with
    | |- P (if ?b then _ else _) => destruct b
    | |- P (match ?l with [] => _ | _ :: _ => _ end) => destruct l
    | |- P (emit _ _) => apply emit_lemma
    | |- P (on_error _ _ _ _ _) => apply error_lemma
    | |- P (inr _) => apply base
    | |- P (utf_8_decode_from _ _ _) => apply IH; simpl in *; lia
    end.

(** Whenever the first result is a text, the second is the same text. *)
Definition same_text (r r' : exn + str) : Prop :=
  forall t, r = inr t -> r' = inr t.

(** As [utf8_branches], for two runs of the decoder on the same bytes. *)
Ltac utf8_branches2 emit_lemma error_lemma IH :=
  repeat
    match goal with
    | |- same_text (if ?b then _ else _) _ => destruct b
    | |- same_text (match ?l with [] => _ | _ :: _ => _ end) _ => destruct l
    | |- same_text (emit _ _) _ => apply emit_lemma
    | |- same_text (on_error _ _ _ _ _) _ => apply error_lemma
    | |- same_text (inr _) _ => intros ? ?; assumption
    | |- same_text (utf_8_decode_from _ _ _) _ => apply IH; simpl in *; lia
    end.

Definition ascii_bytes (data : bytes) : Prop :=
  Forall (fun b => to_N b < 0x80) data.

Definition all_space (t : str) : Prop := Forall (fun c => isspace c = true) t.

(** The candidates a loop goes through: up to and including the first
    one that succeeds. *)
Fixpoint tried {A} (f : encoding -> exn + A) (encs : list encoding)
    : list encoding :=
  match encs with
  | [] => []
  | enc :: rest => enc :: (if succeeded (f enc) then [] else tried f rest)
  end.

(** What the first successful candidate gives. *)
Fixpoint first_success {A} (f : encoding -> exn + A) (encs : list encoding)
    : option A :=
  match encs with
  | [] => None
  | enc :: rest =>
      match f enc with
      | inr a => Some a
      | inl _ => first_success f rest
      end
  end.

(** An exception the loader's loop catches and goes on from. *)
Definition caught_by_loop (e : exn) : bool :=
  is_UnicodeDecodeError e || is_JSONDecodeError e.

(** A candidate rejected: it raised what the loop catches. *)
Definition rejected {A} (r : exn + A) : bool :=
  match r with
  | inl e => caught_by_loop e
  | inr _ => false
  end.

(** A candidate whose exception the loop does not catch. *)
Definition escapes {A} (r : exn + A) : bool :=
  match r with
  | inl e => negb (caught_by_loop e)
  | inr _ => false
  end.

(** The candidates the loader goes through: up to and including the
    first one that is not rejected. *)
Fixpoint attempted {A} (f : encoding -> exn + A) (encs : list encoding)
    : list encoding :=
  match encs with
  | [] => []
  | enc :: rest => enc :: (if rejected (f enc) then attempted f rest else [])
  end.

(** Where the loader's loop stops: the first result that is not a
    rejection, a value or an exception that escapes. *)
Fixpoint first_stop {A} (f : encoding -> exn + A) (encs : list encoding)
    : option (exn + A) :=
  match encs with
  | [] => None
  | enc :: rest => if rejected (f enc) then first_stop f rest else Some (f enc)
  end.

(** The texts the candidates [encs] decode the data to. *)
Definition decoded_texts (data : bytes) (encs : list encoding) : list str :=
  flat_map (fun enc =>
              match decode enc Strict data with
              | inr text => [text]
              | inl _ => []
              end) encs.

Definition strict_open (file_path : string) (enc : encoding) : event :=
  EvOpen file_path (ModeText enc Strict).

(** The last step of the loader, entered when the loop is exhausted. *)
Definition final_attempt (file_path : string) (data : bytes)
    (scan_once : Json.scanner) : list event * (exn + Json.json) :=
  match decode utf_8 Replace data with
  | inl e => ([EvDecode utf_8 Replace], inl e)
  | inr text =>
      ([EvDecode utf_8 Replace; EvLoads text],
       match Json.loads scan_once text with
       | inl (JSONDecodeError msg doc pos) =>
           inl (JSONDecodeError (failed_message file_path msg) doc pos)
       | other => other
       end)
  end.

(** A file system with one readable file. *)
Definition single_file (name : string) (data : bytes) : filesystem :=
  fun p => if String.eqb p name then inr data else inl FileNotFoundError.

(** The bytes of [{}] after a byte-order mark, of [{], and of [ a\r\nb ]. *)
Definition bom_braces : bytes := [xef; xbb; xbf; x7b; x7d].
Definition open_brace : bytes := [x7b].
Definition crlf_text : bytes := [x20; x61; x0d; x0a; x62; x20].

(** The reader returning the content of an ASCII file, stripped, with
    nothing else done to it. *)
Definition returns_content_stripped (data : bytes) (r : exn + str) : Prop :=
  r = inr (strip (map to_N data)).

(** Two exceptions of the same kind: the same class and the same payload,
    up to the path in an [OSError] and the message of a [JSONDecodeError]
    (which quotes the path). *)
Definition same_error (e1 e2 : exn) : Prop :=
  match e1, e2 with
  | OSError k1 _, OSError k2 _ => k1 = k2
  | UnicodeDecodeError c1 a1 b1 r1, UnicodeDecodeError c2 a2 b2 r2 =>
      c1 = c2 /\ a1 = a2 /\ b1 = b2 /\ r1 = r2
  | JSONDecodeError _ d1 p1, JSONDecodeError _ d2 p2 => d1 = d2 /\ p1 = p2
  | RecursionError m1, RecursionError m2 => m1 = m2
  | ValueError m1, ValueError m2 => m1 = m2
  | _, _ => False
  end.

Definition same_outcome {A} (r1 r2 : exn + A) : Prop :=
  match r1, r2 with
  | inr a1, inr a2 => a1 = a2
  | inl e1, inl e2 => same_error e1 e2
  | _, _ => False
  end.

(** The bytes of [a\r\nb] and the text they stand for. *)
Definition crlf_ab : bytes := [x61; x0d; x0a; x62].
Definition crlf_ab_text : str := [97; 13; 10; 98].

Definition bom_file : filesystem := single_file "config.json" bom_braces.
Definition brace_file : filesystem := single_file "broken.json" open_brace.
Definition crlf_file : filesystem := single_file "notes.txt" crlf_text.
Definition crlf_ab_file : filesystem := single_file "lines.txt" crlf_ab.

(** A file of one byte that only Latin-1 accepts. *)
Definition latin_file : filesystem := single_file "legacy.txt" [x81].

(** The same file in a file system that differs everywhere else. *)
Definition crlf_file' : filesystem :=
  fun p => if String.eqb p "notes.txt" then inr crlf_text else inr [].

(** " hi\n": the content "hi" between a space and a newline. *)
Definition padded_hi : bytes := [x20; x68; x69; x0a].
Definition padded_file : filesystem := single_file "hi.txt" padded_hi.

(** ** Windows-1252 *)

(** The five bytes the Windows-1252 table leaves undefined. *)
Definition cp1252_undefined (b : byte) : bool :=
  match cp1252_table b with
  | None => true
  | Some _ => false
  end.

(** The character of a byte under Windows-1252, U+FFFD where the table has
    none. *)
Definition cp1252_char (b : byte) : N :=
  match cp1252_table b with
  | Some ch => ch
  | None => REPLACEMENT
  end.

(** ** Files for the further properties *)

(** A byte-order mark before " hi\n". *)
Definition bom_padded : bytes := BOM_UTF8 ++ padded_hi.
Definition bom_padded_file : filesystem := single_file "bom.txt" bom_padded.

(** The first two bytes of a byte-order mark. *)
Definition cut_bom_file : filesystem := single_file "t.txt" [xef; xbb].

(** Windows-1252 curly quotes around "a". *)
Definition quotes : bytes := [x93; x61; x94].
Definition quotes_file : filesystem := single_file "q.txt" quotes.

(** ** The shape of the loader's work *)

(** A trace made of decoding attempts on [data] and of nothing else: each
    attempt is one decoding of the bytes, followed, when it gives a text
    and only then, by one call of [json.loads], on that text. *)
Inductive attempt_blocks (data : bytes) : list event -> Prop :=
| blocks_done : attempt_blocks data []
| blocks_undecoded enc errors e t :
    decode enc errors data = inl e ->
    attempt_blocks data t ->
    attempt_blocks data (EvDecode enc errors :: t)
| blocks_parsed enc errors text t :
    decode enc errors data = inr text ->
    attempt_blocks data t ->
    attempt_blocks data (EvDecode enc errors :: EvLoads text :: t).

(** ** Inputs beyond the limits of the interpreter *)

(** An integer literal of 4301 digits, bare and after a byte-order mark. *)
Definition long_number : bytes := repeat x31 4301.
Definition bom_long_number : bytes := BOM_UTF8 ++ long_number.
Definition long_number_file : filesystem := single_file "big.json" long_number.
Definition bom_long_number_file : filesystem :=
  single_file "big.json" bom_long_number.

(** What [int] raises on it. *)
Definition long_number_error : exn :=
  ValueError
    "Exceeds the limit (4300 digits) for integer string conversion: value has 4301 digits; use sys.set_int_max_str_digits() to increase the limit".

(** * Properties *)

(** ** The codecs *)

Lemma raises_only_unicode_inr t : raises_only_unicode (inr t).
Proof. intros e H; discriminate. Qed.

Lemma raises_only_unicode_emit ch r :
  raises_only_unicode r -> raises_only_unicode (emit ch r).
Proof.
  intros H e. unfold emit. destruct r as [e'|t]; [|discriminate].
  intros [= <-]. now apply H.
Qed.

Lemma raises_only_unicode_on_error errors reason start len r :
  raises_only_unicode r -> raises_only_unicode (on_error errors reason start len r).
Proof.
  intros H e. unfold on_error. destruct errors.
  - intros [= <-]. reflexivity.
  - destruct r as [e'|t]; [|discriminate]. intros [= <-]. now apply H.
Qed.

Lemma returns_text_emit ch r : returns_text r -> returns_text (emit ch r).
Proof. intros [t ->]. now exists (ch :: t). Qed.

Lemma returns_text_on_error reason start len r :
  returns_text r -> returns_text (on_error Replace reason start len r).
Proof. intros [t ->]. now exists (REPLACEMENT :: t). Qed.

Lemma utf_8_decode_from_raises errors :
  forall n s pos, (List.length s <= n)%nat ->
    raises_only_unicode (utf_8_decode_from errors pos s).
Proof.
  induction n as [|n IH]; intros s pos Hlen.
  - destruct s; [apply raises_only_unicode_inr | simpl in Hlen; lia].
  - destruct s as [|c s1]; [apply raises_only_unicode_inr|].
    cbn [utf_8_decode_from].
    utf8_branches raises_only_unicode raises_only_unicode_emit
      raises_only_unicode_on_error raises_only_unicode_inr IH.
Qed.

Lemma returns_text_nil : returns_text (inr []).
Proof. now exists []. Qed.

Lemma utf_8_decode_from_replace :
  forall n s pos, (List.length s <= n)%nat ->
    returns_text (utf_8_decode_from Replace pos s).
Proof.
  induction n as [|n IH]; intros s pos Hlen.
  - destruct s; [apply returns_text_nil | simpl in Hlen; lia].
  - destruct s as [|c s1]; [apply returns_text_nil|].
    cbn [utf_8_decode_from].
    utf8_branches returns_text returns_text_emit
      returns_text_on_error returns_text_nil IH.
Qed.

(** Decoding with replacement never raises. *)
Lemma utf_8_replace_total data : returns_text (decode utf_8 Replace data).
Proof. apply (utf_8_decode_from_replace (List.length data)). lia. Qed.

Lemma charmap_decode_from_raises errors :
  forall s pos, raises_only_unicode (charmap_decode_from errors pos s).
Proof.
  induction s as [|c s IH]; intros pos; [apply raises_only_unicode_inr|].
  cbn [charmap_decode_from]. destruct (cp1252_table c).
  - apply raises_only_unicode_emit, IH.
  - destruct errors.
    + intros e [= <-]. reflexivity.
    + apply raises_only_unicode_emit, IH.
Qed.

(** The only exception a [bytes.decode] raises is [UnicodeDecodeError]. *)
Lemma decode_raises enc errors data :
  raises_only_unicode (decode enc errors data).
Proof.
  destruct enc; cbn [decode].
  - apply (utf_8_decode_from_raises errors (List.length data)). lia.
  - unfold utf_8_sig_decode. destruct (starts_with_bom data).
    + apply (utf_8_decode_from_raises errors (List.length (skipn 3 data))). lia.
    + apply (utf_8_decode_from_raises errors (List.length data)). lia.
  - apply charmap_decode_from_raises.
  - apply raises_only_unicode_inr.
Qed.

Lemma incremental_decode_raises enc errors data :
  raises_only_unicode (incremental_decode enc errors data).
Proof.
  destruct enc; try apply decode_raises.
  cbn [incremental_decode]. unfold utf_8_sig_incremental.
  destruct (_ <? _)%nat; [destruct (bom_startswith data)|destruct (starts_with_bom data)];
    try apply raises_only_unicode_inr;
    try apply (decode_raises utf_8 errors).
Qed.

Lemma read_text_raises enc errors data e :
  read_text enc errors data = inl e -> is_UnicodeDecodeError e = true.
Proof.
  unfold read_text.
  destruct (incremental_decode enc errors data) as [e'|t] eqn:E; [|discriminate].
  intros [= <-]. now apply (incremental_decode_raises enc errors data).
Qed.

(** Strict Latin-1 accepts every byte sequence. *)
Lemma latin_1_decode_total data :
  decode latin_1 Strict data = inr (map to_N data).
Proof. reflexivity. Qed.

Lemma latin_1_read_text data :
  read_text latin_1 Strict data = inr (universal_newlines (map to_N data)).
Proof. reflexivity. Qed.

(** On ASCII bytes UTF-8 is the identity on values. *)
Lemma utf_8_decode_from_ascii errors data :
  ascii_bytes data ->
  forall pos, utf_8_decode_from errors pos data = inr (map to_N data).
Proof.
  induction 1 as [|b data Hb _ IH]; intros pos; [reflexivity|].
  cbn [utf_8_decode_from map].
  apply N.ltb_lt in Hb. rewrite Hb, IH. reflexivity.
Qed.

Lemma utf_8_decode_ascii errors data :
  ascii_bytes data -> decode utf_8 errors data = inr (map to_N data).
Proof. intros H. apply utf_8_decode_from_ascii, H. Qed.

Lemma same_text_emit ch r r' : same_text r r' -> same_text (emit ch r) (emit ch r').
Proof.
  intros H t. unfold emit. destruct r as [e|t0]; [discriminate|].
  now rewrite (H t0 eq_refl).
Qed.

Lemma same_text_on_error errors reason p q len r r' :
  same_text r r' ->
  same_text (on_error errors reason p len r) (on_error errors reason q len r').
Proof.
  intros H t. unfold on_error. destruct errors; [discriminate|].
  destruct r as [e|t0]; [discriminate|]. now rewrite (H t0 eq_refl).
Qed.

(** The text decoded does not depend on the index the decoder starts
    counting from (the index only shows in the exception). *)
Lemma utf_8_decode_from_shift errors :
  forall n s p q, (List.length s <= n)%nat ->
    same_text (utf_8_decode_from errors p s) (utf_8_decode_from errors q s).
Proof.
  induction n as [|n IH]; intros s p q Hlen.
  - destruct s; [intros t H; exact H | simpl in Hlen; lia].
  - destruct s as [|c s1]; [intros t H; exact H|].
    cbn [utf_8_decode_from].
    utf8_branches2 same_text_emit same_text_on_error IH.
Qed.

(** A byte-order mark before bytes that decode under UTF-8 decodes to
    U+FEFF before their text. *)
Lemma utf_8_decode_bom body text :
  decode utf_8 Strict body = inr text ->
  decode utf_8 Strict (BOM_UTF8 ++ body) = inr (BOM :: text).
Proof.
  intros H. cbn [decode] in *. unfold utf_8_decode, BOM_UTF8 in *.
  cbn [app]. cbn [utf_8_decode_from].
  change (to_N xef <? 0x80) with false. change (to_N xef <? 0xC2) with false.
  change (to_N xef <? 0xE0) with false. change (to_N xef <? 0xF0) with true.
  change (bad_second3 xef xbb) with false.
  change (negb (is_continuation_byte xbf)) with false.
  change (char3 xef xbb xbf) with BOM. cbv iota.
  rewrite (utf_8_decode_from_shift Strict (List.length body) body 0 (0 + 3)
             (le_n _) text H).
  reflexivity.
Qed.

(** ** Newline translation and [strip] *)

Lemma isspace_LF : isspace LF = true.
Proof. reflexivity. Qed.

Lemma isspace_CR : isspace CR = true.
Proof. reflexivity. Qed.

(** No carriage return is left in a translated text. *)
Lemma universal_newlines_no_CR :
  forall n t, (List.length t <= n)%nat -> ~ In CR (universal_newlines t).
Proof.
  induction n as [|n IH]; intros t Hlen.
  - destruct t; [intros [] | simpl in Hlen; lia].
  - destruct t as [|c t1]; [intros []|].
    cbn [universal_newlines].
    destruct (c =? CR) eqn:Ec.
    + destruct t1 as [|c2 t2]; [intros [H|[]]; discriminate|].
      destruct (c2 =? LF); intros [H|H]; try discriminate;
        revert H; apply IH; simpl in *; lia.
    + intros [H|H].
      * subst c. discriminate.
      * revert H. apply IH. simpl in *; lia.
Qed.

(** A text without carriage return is left as it is. *)
Lemma universal_newlines_id t : ~ In CR t -> universal_newlines t = t.
Proof.
  induction t as [|c t IH]; intros H; [reflexivity|].
  cbn [universal_newlines].
  destruct (c =? CR) eqn:Ec.
  - apply N.eqb_eq in Ec. exfalso. apply H. now left.
  - f_equal. apply IH. intros Hin. apply H. now right.
Qed.

Lemma universal_newlines_app_no_CR c t :
  ~ In CR c -> universal_newlines (c ++ t) = c ++ universal_newlines t.
Proof.
  induction c as [|x c IH]; intros H; [reflexivity|].
  cbn [app universal_newlines].
  destruct (x =? CR) eqn:Ex.
  - apply N.eqb_eq in Ex. exfalso. apply H. now left.
  - f_equal. apply IH. intros Hin. apply H. now right.
Qed.

(** Translating after a run of whitespace: the run stays a run of
    whitespace, and what follows is translated as if it stood alone. *)
Lemma universal_newlines_space_prefix :
  forall n ws, (List.length ws <= n)%nat -> all_space ws ->
    forall t, exists w, all_space w /\
      universal_newlines (ws ++ t) = w ++ universal_newlines t.
Proof.
  induction n as [|n IH]; intros ws Hlen Hws t.
  - destruct ws; [|simpl in Hlen; lia]. exists []. split; [constructor | reflexivity].
  - destruct ws as [|c ws1]; [exists []; split; [constructor | reflexivity]|].
    inversion Hws as [|? ? Hc Hws1]; subst.
    cbn [app universal_newlines].
    destruct (c =? CR) eqn:Ec.
    + destruct ws1 as [|c2 ws2].
      * cbn [app]. destruct t as [|c2 t2].
        -- exists [LF]. split; [repeat constructor | reflexivity].
        -- destruct (c2 =? LF) eqn:E2.
           ++ exists []. split; [constructor|].
              apply N.eqb_eq in E2. subst c2. reflexivity.
           ++ exists [LF]. split; [repeat constructor | reflexivity].
      * cbn [app]. inversion Hws1 as [|? ? Hc2 Hws2]; subst.
        destruct (c2 =? LF).
        -- destruct (IH ws2 ltac:(simpl in *; lia) Hws2 t) as [w [Hw Heq]].
           exists (LF :: w). split; [constructor; [reflexivity | exact Hw]|].
           cbn [app]. now rewrite Heq.
        -- destruct (IH (c2 :: ws2) ltac:(simpl in *; lia) Hws1 t) as [w [Hw Heq]].
           exists (LF :: w). split; [constructor; [reflexivity | exact Hw]|].
           cbn [app] in *. now rewrite Heq.
    + destruct (IH ws1 ltac:(simpl in *; lia) Hws1 t) as [w [Hw Heq]].
      exists (c :: w). split; [constructor; assumption|].
      cbn [app]. now rewrite Heq.
Qed.

Lemma universal_newlines_all_space ws :
  all_space ws -> all_space (universal_newlines ws).
Proof.
  intros H.
  destruct (universal_newlines_space_prefix (List.length ws) ws (le_n _) H [])
    as [w [Hw Heq]].
  rewrite !app_nil_r in Heq. now rewrite Heq.
Qed.

Lemma lstrip_all_space ws t : all_space ws -> lstrip (ws ++ t) = lstrip t.
Proof.
  induction 1 as [|c ws Hc _ IH]; [reflexivity|].
  cbn [app lstrip]. now rewrite Hc.
Qed.

Lemma lstrip_nil_all_space t : lstrip t = [] -> all_space t.
Proof.
  induction t as [|c t IH]; [constructor|].
  cbn [lstrip]. destruct (isspace c) eqn:Ec; [|discriminate].
  intros H. constructor; [exact Ec | now apply IH].
Qed.

Lemma lstrip_app t w :
  lstrip (t ++ w) = match lstrip t with [] => lstrip w | _ => lstrip t ++ w end.
Proof.
  induction t as [|c t IH]; cbn [app lstrip].
  - destruct (lstrip w); reflexivity.
  - destruct (isspace c); [exact IH | reflexivity].
Qed.

Lemma all_space_rev ws : all_space ws -> all_space (rev ws).
Proof. unfold all_space. apply Forall_rev. Qed.

Lemma rstrip_all_space t ws : all_space ws -> rstrip (t ++ ws) = rstrip t.
Proof.
  intros H. unfold rstrip. rewrite rev_app_distr.
  now rewrite lstrip_all_space by now apply all_space_rev.
Qed.

Lemma strip_all_space ws : all_space ws -> strip ws = [].
Proof.
  intros H. unfold strip.
  replace (lstrip ws) with (@nil N); [reflexivity|].
  rewrite <- (app_nil_r ws). now rewrite lstrip_all_space.
Qed.

(** Whitespace around a text does not change what [strip] returns. *)
Lemma strip_surrounded w1 c w2 :
  all_space w1 -> all_space w2 -> strip (w1 ++ c ++ w2) = strip c.
Proof.
  intros H1 H2. unfold strip.
  rewrite lstrip_all_space by assumption.
  rewrite lstrip_app.
  destruct (lstrip c) as [|x l] eqn:E.
  - replace (lstrip w2) with (@nil N); [reflexivity|].
    rewrite <- (app_nil_r w2). now rewrite lstrip_all_space.
  - now apply rstrip_all_space.
Qed.

(** ** [json.loads] *)

(** Whatever the scanner, an exception of [json.loads] is a
    [JSONDecodeError] whose document is the text given, or the exception of
    a limit of the runtime. *)
Lemma loads_raises scan text e :
  Json.loads scan text = inl e ->
  (exists msg pos, e = JSONDecodeError msg text pos)
  \/ (exists l, e = Json.limit_error l).
Proof.
  unfold Json.loads, Json.decode, Json.raw_decode.
  destruct (Json.startswith_bom text); [intros [= <-]; eauto|].
  destruct (scan text _) as [obj end_|i|msg pos|l].
  - destruct (Nat.eqb _ _); [discriminate | intros [= <-]; eauto].
  - intros [= <-]; eauto.
  - intros [= <-]; eauto.
  - intros [= <-]; eauto.
Qed.

Lemma limit_error_escapes l : caught_by_loop (Json.limit_error l) = false.
Proof. destruct l; reflexivity. Qed.

(** An exception of [json.loads] that the loop catches is a
    [JSONDecodeError] on the text given. *)
Lemma loads_caught scan text e :
  Json.loads scan text = inl e ->
  caught_by_loop e = true ->
  exists msg pos, e = JSONDecodeError msg text pos.
Proof.
  intros H Hc. destruct (loads_raises _ _ _ H) as [?|[l ->]]; [assumption|].
  rewrite limit_error_escapes in Hc. discriminate.
Qed.

(** An exception of [json.loads] is never a [UnicodeDecodeError]. *)
Lemma loads_not_unicode scan text e :
  Json.loads scan text = inl e -> is_UnicodeDecodeError e = false.
Proof.
  intros H. destruct (loads_raises _ _ _ H) as [[msg [pos ->]]|[[] ->]];
    reflexivity.
Qed.

Lemma loads_bom scan text :
  exists e, Json.loads scan (BOM :: text) = inl e.
Proof. unfold Json.loads. cbn. eauto. Qed.

(** ** The loops of the two functions *)

Section ReadLoop.

Variables (fs : filesystem) (file_path : string) (data : bytes).
Hypothesis Hfile : fs file_path = inr data.

Lemma open_raw_run mode :
  open_raw file_path mode fs = ([EvOpen file_path mode], inr data).
Proof. unfold open_raw, bind, log. now rewrite Hfile. Qed.

Lemma read_attempt_run enc errors :
  (f <- open_text file_path enc errors ;; read_str f) fs
  = ([EvOpen file_path (ModeText enc errors)], read_text enc errors data).
Proof.
  unfold open_text, bind at 1 2. rewrite open_raw_run.
  unfold ret, read_str, lift. reflexivity.
Qed.

Lemma read_text_loop_run encs :
  read_text_loop file_path encs fs
  = (map (strict_open file_path) (tried (fun enc => read_text enc Strict data) encs),
     inr (match first_success (fun enc => read_text enc Strict data) encs with
          | Some content => Return content
          | None => Exhausted tt
          end)).
Proof.
  induction encs as [|enc rest IH]; [reflexivity|].
  cbn [read_text_loop tried first_success map].
  unfold try_except, open_text, bind at 1 2 3. rewrite open_raw_run.
  unfold ret, read_str, lift. cbn [tf_encoding tf_errors tf_raw app].
  destruct (read_text enc Strict data) as [e|content] eqn:E; cbn [succeeded].
  - rewrite (read_text_raises _ _ _ _ E), IH. reflexivity.
  - reflexivity.
Qed.

End ReadLoop.

Section LoadLoop.

Variables (scan_once : Json.scanner) (data : bytes).

Lemma load_attempt_run enc errors fs :
  (text <- bytes_decode data enc errors ;; json_loads scan_once text) fs
  = match decode enc errors data with
    | inl e => ([EvDecode enc errors], inl e)
    | inr text => ([EvDecode enc errors; EvLoads text], Json.loads scan_once text)
    end.
Proof.
  unfold bytes_decode, json_loads, bind, log, lift.
  destruct (decode enc errors data); reflexivity.
Qed.

(** A candidate fails at decoding with what the loop catches, and at
    parsing with a [JSONDecodeError] or at a limit of the runtime. *)
Lemma attempt_raises enc e :
  attempt scan_once data enc = inl e ->
  caught_by_loop e = true \/ exists l, e = Json.limit_error l.
Proof.
  unfold attempt. destruct (decode enc Strict data) as [e'|text] eqn:E.
  - intros [= <-]. left. unfold caught_by_loop.
    now rewrite (decode_raises _ _ _ _ E).
  - intros H. destruct (loads_raises _ _ _ H) as [[msg [pos ->]]|[l ->]];
      [left; reflexivity | right; eauto].
Qed.

(** The loop of the loader, candidate by candidate. *)
Lemma load_json_loop_step enc rest last_error fs :
  load_json_loop scan_once data (enc :: rest) last_error fs
  = match decode enc Strict data with
    | inl e =>
        let (t, r) := load_json_loop scan_once data rest (Some e) fs in
        (EvDecode enc Strict :: t, r)
    | inr text =>
        match Json.loads scan_once text with
        | inl e =>
            if caught_by_loop e then
              let (t, r) := load_json_loop scan_once data rest (Some e) fs in
              (EvDecode enc Strict :: EvLoads text :: t, r)
            else ([EvDecode enc Strict; EvLoads text], inl e)
        | inr v => ([EvDecode enc Strict; EvLoads text], inr (Return v))
        end
    end.
Proof.
  cbn [load_json_loop]. unfold try_except.
  unfold bytes_decode, json_loads, bind, log, lift, ret.
  destruct (decode enc Strict data) as [e|text] eqn:E; cbn [app].
  - rewrite (decode_raises _ _ _ _ E). cbn [orb]. reflexivity.
  - destruct (Json.loads scan_once text) as [e|v] eqn:L; cbn [app]; [|reflexivity].
    unfold caught_by_loop.
    destruct (is_UnicodeDecodeError e || is_JSONDecodeError e); reflexivity.
Qed.

Lemma load_json_loop_run encs : forall last_error fs,
  let o := load_json_loop scan_once data encs last_error fs in
  decode_attempts (trace o)
    = map (fun enc => (enc, Strict)) (attempted (attempt scan_once data) encs)
  /\ parsed_texts (trace o)
    = decoded_texts data (attempted (attempt scan_once data) encs)
  /\ opens (trace o) = 0%nat
  /\ match first_stop (attempt scan_once data) encs with
     | Some (inr v) => result o = inr (Return v)
     | Some (inl e) => result o = inl e
     | None => exists last, result o = inr (Exhausted last)
     end.
Proof.
  induction encs as [|enc rest IH]; intros last_error fs.
  - cbn. repeat split. now exists last_error.
  - cbv zeta. rewrite load_json_loop_step.
    cbn [attempted first_stop map decoded_texts flat_map].
    remember (attempt scan_once data enc) as a eqn:Ha. unfold attempt in Ha.
    destruct (decode enc Strict data) as [e|text] eqn:E.
    + subst a. cbn [rejected]. unfold caught_by_loop.
      rewrite (decode_raises _ _ _ _ E). cbn [orb].
      specialize (IH (Some e) fs). cbv zeta in IH.
      destruct (load_json_loop scan_once data rest (Some e) fs) as [t r].
      cbn [trace result fst snd decode_attempts parsed_texts app] in *.
      destruct IH as (H1 & H2 & H3 & H4). now rewrite H1, H2.
    + destruct (Json.loads scan_once text) as [e|v] eqn:L; subst a; cbn [rejected].
      * destruct (caught_by_loop e) eqn:C.
        -- specialize (IH (Some e) fs). cbv zeta in IH.
           destruct (load_json_loop scan_once data rest (Some e) fs) as [t r].
           cbn [trace result fst snd decode_attempts parsed_texts app] in *.
           destruct IH as (H1 & H2 & H3 & H4). now rewrite H1, H2.
        -- cbn. repeat split.
      * cbn. repeat split.
Qed.

End LoadLoop.

Lemma attempted_length {A} (f : encoding -> exn + A) encs :
  (List.length (attempted f encs) <= List.length encs)%nat.
Proof.
  induction encs as [|enc rest IH]; cbn [attempted List.length]; [lia|].
  destruct (rejected (f enc)); cbn [List.length]; lia.
Qed.

Lemma attempted_incl {A} (f : encoding -> exn + A) encs enc :
  In enc (attempted f encs) -> In enc encs.
Proof.
  induction encs as [|x l IH]; cbn [attempted]; [intros []|].
  intros [->|Hin]; [now left|]. right.
  destruct (rejected (f x)); [now apply IH | destruct Hin].
Qed.

Lemma attempted_app {A} (f : encoding -> exn + A) pre enc post :
  Forall (fun e => rejected (f e) = true) pre ->
  rejected (f enc) = false ->
  attempted f (pre ++ enc :: post) = pre ++ [enc].
Proof.
  intros Hpre Henc. induction Hpre as [|e pre He _ IH]; cbn [app attempted].
  - now rewrite Henc.
  - now rewrite He, IH.
Qed.

Lemma attempted_all_rejected {A} (f : encoding -> exn + A) encs :
  Forall (fun e => rejected (f e) = true) encs -> attempted f encs = encs.
Proof.
  induction 1 as [|e encs He _ IH]; cbn [attempted]; [reflexivity|].
  now rewrite He, IH.
Qed.

Lemma first_stop_app {A} (f : encoding -> exn + A) pre enc post :
  Forall (fun e => rejected (f e) = true) pre ->
  rejected (f enc) = false ->
  first_stop f (pre ++ enc :: post) = Some (f enc).
Proof.
  intros Hpre Henc. induction Hpre as [|e pre He _ IH]; cbn [app first_stop].
  - now rewrite Henc.
  - now rewrite He.
Qed.

Lemma first_stop_all_rejected {A} (f : encoding -> exn + A) encs :
  Forall (fun e => rejected (f e) = true) encs -> first_stop f encs = None.
Proof.
  induction 1 as [|e encs He _ IH]; cbn [first_stop]; [reflexivity|].
  now rewrite He.
Qed.

Lemma first_stop_none {A} (f : encoding -> exn + A) encs :
  first_stop f encs = None -> Forall (fun e => rejected (f e) = true) encs.
Proof.
  induction encs as [|e encs IH]; cbn [first_stop]; [constructor|].
  destruct (rejected (f e)) eqn:E; [|discriminate].
  intros H. constructor; [exact E | now apply IH].
Qed.

(** A loop that stops early stops on a candidate that is not rejected,
    all the earlier ones having been rejected. *)
Lemma first_stop_some {A} (f : encoding -> exn + A) encs r :
  first_stop f encs = Some r ->
  exists pre enc post,
    encs = pre ++ enc :: post
    /\ f enc = r /\ rejected r = false
    /\ Forall (fun e => rejected (f e) = true) pre.
Proof.
  induction encs as [|e encs IH]; cbn [first_stop]; [discriminate|].
  destruct (rejected (f e)) eqn:E.
  - intros H. destruct (IH H) as (pre & enc & post & Ht & Hf & Hr & Hpre).
    exists (e :: pre), enc, post. rewrite Ht. repeat split; try assumption.
    now constructor.
  - intros [= <-]. exists [], e, encs. repeat split; auto.
Qed.

(** A result that is neither a value nor an escaping exception is a
    rejection. *)
Lemma rejected_of_failed {A} (r : exn + A) :
  succeeded r = false -> escapes r = false -> rejected r = true.
Proof.
  destruct r as [e|a]; cbn; [|discriminate].
  intros _ H. now destruct (caught_by_loop e).
Qed.

Lemma Forall_rejected_of_failed {A} (f : encoding -> exn + A) encs :
  Forall (fun e => succeeded (f e) = false) encs ->
  Forall (fun e => escapes (f e) = false) encs ->
  Forall (fun e => rejected (f e) = true) encs.
Proof.
  induction 1 as [|e encs He _ IH]; intros H; [constructor|].
  inversion H; subst. constructor; [now apply rejected_of_failed | now apply IH].
Qed.

Lemma tried_length {A} (f : encoding -> exn + A) encs :
  (List.length (tried f encs) <= List.length encs)%nat.
Proof.
  induction encs as [|enc rest IH]; cbn [tried List.length]; [lia|].
  destruct (succeeded (f enc)); cbn [List.length]; lia.
Qed.

(** The text reader finds a candidate for every byte sequence. *)
Lemma first_text_total data :
  exists content,
    first_success (fun enc => read_text enc Strict data) encodings = Some content.
Proof.
  unfold encodings. cbn [first_success].
  destruct (read_text utf_8 Strict data); [|eauto].
  destruct (read_text utf_8_sig Strict data); [|eauto].
  destruct (read_text cp1252 Strict data); [|eauto].
  rewrite latin_1_read_text. eauto.
Qed.

Lemma first_text_decoding data :
  first_success (fun enc => read_text enc Strict data) encodings
  = option_map universal_newlines
      (first_success (fun enc => incremental_decode enc Strict data) encodings).
Proof.
  unfold encodings, read_text. cbn [first_success].
  repeat (match goal with
          | |- context [incremental_decode ?e Strict data] =>
              destruct (incremental_decode e Strict data); [|reflexivity]
          end).
  reflexivity.
Qed.

Lemma opens_strict_opens file_path encs :
  opens (map (strict_open file_path) encs) = List.length encs.
Proof.
  unfold opens. induction encs as [|e encs IH]; [reflexivity|].
  cbn [map filter strict_open List.length]. now rewrite IH.
Qed.

Lemma open_modes_strict_opens file_path encs :
  open_modes (map (strict_open file_path) encs)
  = map (fun enc => ModeText enc Strict) encs.
Proof.
  induction encs as [|e encs IH]; [reflexivity|].
  cbn [map open_modes strict_open]. now rewrite IH.
Qed.

(** ** The two functions, on a readable file and on one that is not *)

Section Readable.

Variables (fs : filesystem) (file_path : string) (data : bytes).
Hypothesis Hfile : fs file_path = inr data.

Lemma read_text_with_fallback_run content :
  first_success (fun enc => read_text enc Strict data) encodings = Some content ->
  _read_text_with_fallback file_path fs
  = (map (strict_open file_path)
       (tried (fun enc => read_text enc Strict data) encodings),
     inr content).
Proof.
  intros H. unfold _read_text_with_fallback, bind.
  rewrite (read_text_loop_run fs file_path data Hfile), H.
  unfold ret. now rewrite app_nil_r.
Qed.

Lemma read_file_run content :
  first_success (fun enc => read_text enc Strict data) encodings = Some content ->
  read_file file_path fs
  = (map (strict_open file_path)
       (tried (fun enc => read_text enc Strict data) encodings),
     inr (strip content)).
Proof.
  intros H. unfold read_file, bind.
  rewrite (read_text_with_fallback_run content H).
  unfold ret. now rewrite app_nil_r.
Qed.

Variable scan_once : Json.scanner.

Lemma load_json_file_run :
  load_json_file scan_once file_path fs
  = let (t, r) := load_json_loop scan_once data encodings None fs in
    match r with
    | inl e => (EvOpen file_path ModeBinary :: t, inl e)
    | inr (Return v) => (EvOpen file_path ModeBinary :: t, inr v)
    | inr (Exhausted _) =>
        (EvOpen file_path ModeBinary
           :: t ++ fst (final_attempt file_path data scan_once),
         snd (final_attempt file_path data scan_once))
    end.
Proof.
  unfold load_json_file, open_binary, bind at 1 2 3 4.
  rewrite (open_raw_run fs file_path data Hfile).
  unfold ret at 1, read_bytes, ret at 1. cbn [bf_raw app].
  destruct (load_json_loop scan_once data encodings None fs) as [t [e|[v|last]]].
  - reflexivity.
  - unfold ret. now rewrite app_nil_r.
  - unfold try_except, final_attempt. rewrite load_attempt_run.
    destruct (decode utf_8 Replace data) as [e|text] eqn:E.
    + destruct (utf_8_replace_total data) as [t' Ht']. congruence.
    + destruct (Json.loads scan_once text) as [e|v] eqn:L; [|reflexivity].
      destruct (loads_raises _ _ _ L) as [[msg [pos ->]]|[[] ->]].
      * unfold raise. cbn [fst snd]. now rewrite app_nil_r.
      * reflexivity.
      * reflexivity.
Qed.

End Readable.

(** ** The JSON loader *)

Lemma parsed_texts_app a b :
  parsed_texts (a ++ b) = parsed_texts a ++ parsed_texts b.
Proof.
  induction a as [|[] a IH]; cbn [app parsed_texts]; now rewrite ?IH.
Qed.

Lemma decode_attempts_app a b :
  decode_attempts (a ++ b) = decode_attempts a ++ decode_attempts b.
Proof.
  induction a as [|[] a IH]; cbn [app decode_attempts]; now rewrite ?IH.
Qed.

Lemma final_attempt_decodes file_path data scan_once :
  decode_attempts (fst (final_attempt file_path data scan_once))
  = [(utf_8, Replace)].
Proof. unfold final_attempt. destruct (decode utf_8 Replace data); reflexivity. Qed.

(** The first candidate that is not rejected ends the call: with its
    value, or with its exception when the loop does not catch it. *)
Lemma loader_stops
    (scan_once : Json.scanner) (fs : filesystem) (file_path : string)
    (data : bytes) (pre post : list encoding) (enc : encoding) :
  fs file_path = inr data ->
  encodings = pre ++ enc :: post ->
  Forall (fun e => rejected (attempt scan_once data e) = true) pre ->
  rejected (attempt scan_once data enc) = false ->
  let o := load_json_file scan_once file_path fs in
  result o = attempt scan_once data enc
  /\ decode_attempts (trace o) = map (fun e => (e, Strict)) (pre ++ [enc])
  /\ parsed_texts (trace o) = decoded_texts data (pre ++ [enc])
  /\ opens (trace o) = 1%nat.
Proof.
  intros Hfile Hsplit Hpre Henc o. subst o.
  rewrite (load_json_file_run fs file_path data Hfile), Hsplit.
  pose proof (load_json_loop_run scan_once data (pre ++ enc :: post) None fs) as H.
  cbv zeta in H.
  rewrite (attempted_app _ pre enc post Hpre Henc) in H.
  rewrite (first_stop_app _ pre enc post Hpre Henc) in H.
  destruct (load_json_loop scan_once data (pre ++ enc :: post) None fs) as [t r].
  cbn [trace result fst snd] in H. destruct H as (H1 & H2 & H3 & H4).
  assert (Ho : opens (EvOpen file_path ModeBinary :: t) = 1%nat).
  { unfold opens in *. cbn [filter List.length]. now rewrite H3. }
  destruct (attempt scan_once data enc) as [e|v]; subst r;
    cbn [trace result fst snd decode_attempts parsed_texts];
    repeat split; assumption.
Qed.

(** When all four candidates are rejected, the call ends as its last
    step does, after five decoding attempts. *)
Lemma loader_exhausts
    (scan_once : Json.scanner) (fs : filesystem) (file_path : string)
    (data : bytes) :
  fs file_path = inr data ->
  Forall (fun e => rejected (attempt scan_once data e) = true) encodings ->
  let o := load_json_file scan_once file_path fs in
  result o = snd (final_attempt file_path data scan_once)
  /\ decode_attempts (trace o) = all_attempts
  /\ parsed_texts (trace o)
     = decoded_texts data encodings
         ++ parsed_texts (fst (final_attempt file_path data scan_once)).
Proof.
  intros Hfile Hall o. subst o.
  rewrite (load_json_file_run fs file_path data Hfile).
  pose proof (load_json_loop_run scan_once data encodings None fs) as H.
  cbv zeta in H.
  rewrite (attempted_all_rejected _ _ Hall), (first_stop_all_rejected _ _ Hall) in H.
  destruct (load_json_loop scan_once data encodings None fs) as [t r].
  cbn [trace result fst snd] in H. destruct H as (H1 & H2 & H3 & [last ->]).
  cbn [trace result fst snd decode_attempts parsed_texts].
  rewrite decode_attempts_app, parsed_texts_app, H1, H2, final_attempt_decodes.
  repeat split.
Qed.

(** The two ways a call on a readable file ends. *)
Lemma load_json_file_cases
    (scan_once : Json.scanner) (fs : filesystem) (file_path : string)
    (data : bytes) :
  fs file_path = inr data ->
  let o := load_json_file scan_once file_path fs in
  (exists pre enc post,
      encodings = pre ++ enc :: post
      /\ Forall (fun e => rejected (attempt scan_once data e) = true) pre
      /\ rejected (attempt scan_once data enc) = false
      /\ result o = attempt scan_once data enc
      /\ decode_attempts (trace o) = map (fun e => (e, Strict)) (pre ++ [enc])
      /\ parsed_texts (trace o) = decoded_texts data (pre ++ [enc]))
  \/ (Forall (fun e => rejected (attempt scan_once data e) = true) encodings
      /\ result o = snd (final_attempt file_path data scan_once)
      /\ decode_attempts (trace o) = all_attempts
      /\ parsed_texts (trace o)
         = decoded_texts data encodings
             ++ parsed_texts (fst (final_attempt file_path data scan_once))).
Proof.
  intros Hfile o. subst o.
  destruct (first_stop (attempt scan_once data) encodings) as [r|] eqn:F.
  - left.
    destruct (first_stop_some _ _ _ F) as (pre & enc & post & Hs & Hf & Hr & Hpre).
    subst r.
    destruct (loader_stops scan_once fs file_path data pre post enc
                Hfile Hs Hpre Hr) as (H1 & H2 & H3 & _).
    exists pre, enc, post. auto 10.
  - right. pose proof (first_stop_none _ _ F) as Hall.
    destruct (loader_exhausts scan_once fs file_path data Hfile Hall)
      as (H1 & H2 & H3).
    auto.
Qed.

(** What a candidate that is not rejected has done. *)
Lemma attempt_returns scan_once data enc v :
  attempt scan_once data enc = inr v ->
  exists text,
    decode enc Strict data = inr text /\ Json.loads scan_once text = inr v.
Proof.
  unfold attempt. destruct (decode enc Strict data) as [e|text]; [discriminate|].
  eauto.
Qed.

Lemma attempt_escapes scan_once data enc e :
  attempt scan_once data enc = inl e ->
  caught_by_loop e = false ->
  exists text l,
    decode enc Strict data = inr text
    /\ Json.loads scan_once text = inl e
    /\ e = Json.limit_error l.
Proof.
  unfold attempt. destruct (decode enc Strict data) as [e'|text] eqn:E.
  - intros [= <-] H. unfold caught_by_loop in H.
    now rewrite (decode_raises _ _ _ _ E) in H.
  - intros L H. destruct (loads_raises _ _ _ L) as [[msg [pos ->]]|[l ->]];
      [discriminate | eauto].
Qed.

(** The first candidate that decodes and parses ends the loop. *)
Lemma first_success_ends_loop
    (scan_once : Json.scanner) (fs : filesystem) (file_path : string)
    (data : bytes) (pre post : list encoding) (enc : encoding) (v : Json.json) :
  fs file_path = inr data ->
  encodings = pre ++ enc :: post ->
  Forall (fun e => rejected (attempt scan_once data e) = true) pre ->
  attempt scan_once data enc = inr v ->
  let o := load_json_file scan_once file_path fs in
  result o = inr v
  /\ decode_attempts (trace o) = map (fun e => (e, Strict)) (pre ++ [enc])
  /\ parsed_texts (trace o) = decoded_texts data (pre ++ [enc])
  /\ opens (trace o) = 1%nat.
Proof.
  intros Hfile Hsplit Hpre Henc.
  pose proof (loader_stops scan_once fs file_path data pre post enc
                Hfile Hsplit Hpre) as H.
  rewrite Henc in H. exact (H eq_refl).
Qed.

(** C1. The loader goes through the candidates in the fixed order UTF-8,
    UTF-8 with BOM, Windows-1252, Latin-1: when every candidate before
    [enc] fails (at decoding or at parsing, with the [UnicodeDecodeError]
    or the [JSONDecodeError] the loop catches) and [enc] decodes and parses
    to [v], the call returns [v], and the decoding attempts it made are
    exactly those up to [enc], in order; no later candidate and no lossy
    decoding is attempted, and the file is opened once. *)
Theorem load_json_file_first_success_wins
    (scan_once : Json.scanner) (fs : filesystem) (file_path : string)
    (data : bytes) (pre post : list encoding) (enc : encoding) (v : Json.json) :
  fs file_path = inr data ->
  encodings = pre ++ enc :: post ->
  Forall (fun e => succeeded (attempt scan_once data e) = false) pre ->
  Forall (fun e => escapes (attempt scan_once data e) = false) pre ->
  attempt scan_once data enc = inr v ->
  let o := load_json_file scan_once file_path fs in
  encodings = [utf_8; utf_8_sig; cp1252; latin_1]
  /\ result o = inr v
  /\ decode_attempts (trace o) = map (fun e => (e, Strict)) (pre ++ [enc])
  /\ parsed_texts (trace o) = decoded_texts data (pre ++ [enc])
  /\ opens (trace o) = 1%nat.
Proof.
  intros Hfile Hsplit Hpre Hesc Henc o.
  split; [reflexivity|].
  exact (first_success_ends_loop scan_once fs file_path data pre post enc v
           Hfile Hsplit (Forall_rejected_of_failed _ _ Hpre Hesc) Henc).
Qed.

(** C4, for combinations that fail with what the loader catches.  When
    each of the four candidates fails with a [UnicodeDecodeError] or a
    [JSONDecodeError] and the text decoded with replacement is rejected by
    the parser with a [JSONDecodeError], the call raises a
    [JSONDecodeError] whose message is
    "Failed to decode/parse JSON from {path}: {msg}", with [msg] the message
    of the last parse error, whose document is the text decoded with
    replacement and whose position is that of the last parse error; all
    five attempts were made. *)
Theorem load_json_file_final_error
    (scan_once : Json.scanner) (fs : filesystem) (file_path : string)
    (data : bytes) (text : str) (msg : string) (doc : str) (pos : nat) :
  fs file_path = inr data ->
  Forall (fun e => succeeded (attempt scan_once data e) = false) encodings ->
  Forall (fun e => escapes (attempt scan_once data e) = false) encodings ->
  decode utf_8 Replace data = inr text ->
  Json.loads scan_once text = inl (JSONDecodeError msg doc pos) ->
  let o := load_json_file scan_once file_path fs in
  result o
    = inl (JSONDecodeError
             ("Failed to decode/parse JSON from " ++ file_path ++ ": " ++ msg)%string
             text pos)
  /\ doc = text
  /\ decode_attempts (trace o) = all_attempts.
Proof.
  intros Hfile Hall Hesc Hdec Hloads o. subst o.
  assert (doc = text) as ->.
  { destruct (loads_caught _ _ _ Hloads eq_refl) as [m [p [= _ -> _]]].
    reflexivity. }
  destruct (loader_exhausts scan_once fs file_path data Hfile
              (Forall_rejected_of_failed _ _ Hall Hesc)) as (Hr & Ha & _).
  rewrite Hr, Ha. unfold final_attempt. rewrite Hdec, Hloads.
  repeat split.
Qed.

(** C5, with the early return and the exceptions that escape made
    explicit.  When the bytes decode under UTF-8 and the parser rejects the
    text with a [JSONDecodeError], the loader does not give up: UTF-8 with
    BOM is attempted next, and the loop goes on through the remaining
    candidates for as long as they are rejected.  It stops at the first of
    them that decodes and parses, whose value is returned at once, or that
    raises an exception the loop does not catch, which ends the call.
    When all of them are rejected the decoding with replacement is
    attempted as well; and a call that raises a [JSONDecodeError] has made
    all five attempts. *)
Theorem load_json_file_retries_after_parse_error
    (scan_once : Json.scanner) (fs : filesystem) (file_path : string)
    (data : bytes) (text : str) (msg : string) (doc : str) (pos : nat) :
  fs file_path = inr data ->
  decode utf_8 Strict data = inr text ->
  Json.loads scan_once text = inl (JSONDecodeError msg doc pos) ->
  let o := load_json_file scan_once file_path fs in
  let later := [utf_8_sig; cp1252; latin_1] in
  (exists more,
      decode_attempts (trace o) = (utf_8, Strict) :: (utf_8_sig, Strict) :: more)
  /\ (forall pre enc post v,
        later = pre ++ enc :: post ->
        Forall (fun e => rejected (attempt scan_once data e) = true) pre ->
        attempt scan_once data enc = inr v ->
        result o = inr v
        /\ decode_attempts (trace o)
           = map (fun e => (e, Strict)) (utf_8 :: pre ++ [enc]))
  /\ (forall pre enc post e,
        later = pre ++ enc :: post ->
        Forall (fun e => rejected (attempt scan_once data e) = true) pre ->
        attempt scan_once data enc = inl e ->
        caught_by_loop e = false ->
        result o = inl e
        /\ decode_attempts (trace o)
           = map (fun e => (e, Strict)) (utf_8 :: pre ++ [enc]))
  /\ (Forall (fun e => rejected (attempt scan_once data e) = true) later ->
      decode_attempts (trace o) = all_attempts)
  /\ (forall e, result o = inl e -> is_JSONDecodeError e = true ->
      decode_attempts (trace o) = all_attempts).
Proof.
  intros Hfile Hdec Hloads o later. subst o later.
  assert (Hfirst : rejected (attempt scan_once data utf_8) = true).
  { unfold attempt. rewrite Hdec, Hloads. reflexivity. }
  assert (Hstop : forall pre enc post,
             [utf_8_sig; cp1252; latin_1] = pre ++ enc :: post ->
             Forall (fun e => rejected (attempt scan_once data e) = true) pre ->
             rejected (attempt scan_once data enc) = false ->
             result (load_json_file scan_once file_path fs)
             = attempt scan_once data enc
             /\ decode_attempts (trace (load_json_file scan_once file_path fs))
                = map (fun e => (e, Strict)) (utf_8 :: pre ++ [enc])).
  { intros pre enc post Hsplit Hpre Henc.
    assert (Hall : encodings = (utf_8 :: pre) ++ enc :: post).
    { unfold encodings. cbn [app]. now rewrite Hsplit. }
    destruct (loader_stops scan_once fs file_path data (utf_8 :: pre) post enc
                Hfile Hall (Forall_cons _ Hfirst Hpre) Henc) as (Hr & Ha & _).
    split; assumption. }
  split; [|split; [|split; [|split]]].
  - pose proof (load_json_loop_run scan_once data encodings None fs) as H.
    cbv zeta in H. rewrite (load_json_file_run fs file_path data Hfile).
    destruct (load_json_loop scan_once data encodings None fs) as [t r].
    cbn [trace result fst snd] in H. destruct H as (H1 & _).
    unfold encodings in H1. cbn [attempted] in H1. rewrite Hfirst in H1.
    cbn [map] in H1.
    destruct r as [e|[v|last]]; cbn [trace fst decode_attempts];
      rewrite ?decode_attempts_app, H1; cbn [app]; eauto.
  - intros pre enc post v Hsplit Hpre Henc.
    destruct (Hstop pre enc post Hsplit Hpre) as [Hr Ha]; [now rewrite Henc|].
    rewrite Hr, Ha, Henc. auto.
  - intros pre enc post e Hsplit Hpre Henc He.
    destruct (Hstop pre enc post Hsplit Hpre) as [Hr Ha];
      [rewrite Henc; cbn [rejected]; exact He|].
    rewrite Hr, Ha, Henc. auto.
  - intros Hlater.
    destruct (loader_exhausts scan_once fs file_path data Hfile) as (_ & Ha & _);
      [|exact Ha].
    unfold encodings. now constructor.
  - intros e Hres Hjson.
    destruct (load_json_file_cases scan_once fs file_path data Hfile)
      as [(pre & enc & post & _ & _ & Hr & Ho & _)|(_ & _ & Ha & _)];
      [exfalso | exact Ha].
    rewrite Hres in Ho. rewrite <- Ho in Hr. cbn [rejected] in Hr.
    unfold caught_by_loop in Hr. rewrite Hjson, orb_true_r in Hr.
    discriminate.
Qed.

(** C7. For a file that is a UTF-8 byte-order mark followed by bytes that
    decode under UTF-8 to a text that parses to [v], the call returns [v]:
    the plain UTF-8 attempt decodes the mark to U+FEFF and fails at the
    parse step, and the UTF-8-with-BOM attempt, which drops the mark,
    decodes and parses; nothing else is attempted. *)
Theorem load_json_file_bom
    (scan_once : Json.scanner) (fs : filesystem) (file_path : string)
    (body : bytes) (text : str) (v : Json.json) :
  fs file_path = inr (BOM_UTF8 ++ body) ->
  decode utf_8 Strict body = inr text ->
  Json.loads scan_once text = inr v ->
  let o := load_json_file scan_once file_path fs in
  result o = inr v
  /\ attempt scan_once (BOM_UTF8 ++ body) utf_8
     = inl (JSONDecodeError "Unexpected UTF-8 BOM (decode using utf-8-sig)"
              (BOM :: text) 0)
  /\ decode utf_8_sig Strict (BOM_UTF8 ++ body) = inr text
  /\ decode_attempts (trace o) = [(utf_8, Strict); (utf_8_sig, Strict)]
  /\ parsed_texts (trace o) = [BOM :: text; text].
Proof.
  intros Hfile Hdec Hloads.
  assert (Hsig : decode utf_8_sig Strict (BOM_UTF8 ++ body) = inr text).
  { exact Hdec. }
  pose proof (utf_8_decode_bom body text Hdec) as Hbom.
  assert (Hplain : attempt scan_once (BOM_UTF8 ++ body) utf_8
                   = inl (JSONDecodeError
                            "Unexpected UTF-8 BOM (decode using utf-8-sig)"
                            (BOM :: text) 0)).
  { unfold attempt. rewrite Hbom. reflexivity. }
  destruct (first_success_ends_loop scan_once fs file_path
              (BOM_UTF8 ++ body) [utf_8] [cp1252; latin_1] utf_8_sig v Hfile
              eq_refl) as (Hres & Hatt & Htexts & _).
  - constructor; [now rewrite Hplain | constructor].
  - unfold attempt. now rewrite Hsig.
  - cbv zeta. repeat split; try assumption.
    rewrite Htexts. unfold decoded_texts. cbn [app flat_map].
    now rewrite Hbom, Hsig.
Qed.

(** ** The text reader *)

(** C2. On a readable file, whatever its bytes, [read_file] returns a
    string: the first candidate under which the strict read succeeds gives
    the content, which is returned stripped; every candidate tried before
    it raised a [UnicodeDecodeError] that the loop absorbed by going on to
    the next candidate, so that the opens made are those of the candidates
    up to the successful one. *)
Theorem read_file_returns_string
    (fs : filesystem) (file_path : string) (data : bytes) :
  fs file_path = inr data ->
  let o := read_file file_path fs in
  exists content,
    first_success (fun enc => read_text enc Strict data) encodings = Some content
    /\ result o = inr (strip content)
    /\ open_modes (trace o)
       = map (fun enc => ModeText enc Strict)
           (tried (fun enc => read_text enc Strict data) encodings)
    /\ (forall enc e, read_text enc Strict data = inl e ->
          is_UnicodeDecodeError e = true).
Proof.
  intros Hfile o. subst o.
  destruct (first_text_total data) as [content Hc].
  exists content.
  rewrite (read_file_run fs file_path data Hfile content Hc).
  cbn [trace result fst snd]. rewrite open_modes_strict_opens.
  repeat split; try assumption.
  intros enc e. apply read_text_raises.
Qed.

(** C9. Strict Latin-1 decodes every byte sequence, so on a readable file
    the loop of [_read_text_with_fallback] always returns from one of its
    four strict attempts: the file is opened at most four times, and never
    with the replacing error handler. *)
Theorem read_text_fallback_unreachable
    (fs : filesystem) (file_path : string) (data : bytes) :
  fs file_path = inr data ->
  let o := _read_text_with_fallback file_path fs in
  decode latin_1 Strict data = inr (map to_N data)
  /\ (exists content,
         result (read_text_loop file_path encodings fs) = inr (Return content)
         /\ result o = inr content)
  /\ (1 <= opens (trace o) <= 4)%nat
  /\ ~ In (ModeText utf_8 Replace) (open_modes (trace o))
  /\ trace (read_file file_path fs) = trace o.
Proof.
  intros Hfile o. subst o.
  destruct (first_text_total data) as [content Hc].
  rewrite (read_file_run fs file_path data Hfile content Hc).
  rewrite (read_text_with_fallback_run fs file_path data Hfile content Hc).
  rewrite (read_text_loop_run fs file_path data Hfile), Hc.
  cbn [trace result fst snd].
  rewrite opens_strict_opens, open_modes_strict_opens.
  split; [reflexivity|]. split; [eauto|]. split; [|split; [|reflexivity]].
  - pose proof (tried_length (fun enc => read_text enc Strict data) encodings) as H.
    cbn [encodings List.length] in H. split; [|exact H].
    unfold encodings. cbn [tried List.length]. lia.
  - intros Hin. apply in_map_iff in Hin. destruct Hin as [enc [[=] _]].
Qed.

(** C3, with the translation of newlines made explicit.  On a readable
    file [read_file] returns the text as
    read in text mode, stripped: the bytes decoded under the first
    candidate that accepts them, with every "\r\n" and every lone "\r"
    turned into "\n", without its leading and trailing whitespace.  For an
    ASCII file made of content without carriage return between two runs of
    whitespace it returns exactly the content stripped, and for an empty
    file the empty string. *)
Theorem read_file_stripped_text
    (fs : filesystem) (file_path : string) (data : bytes) :
  fs file_path = inr data ->
  let o := read_file file_path fs in
  (exists decoded,
      first_success (fun enc => incremental_decode enc Strict data) encodings
        = Some decoded
      /\ result o = inr (strip (universal_newlines decoded)))
  /\ (forall ws1 content ws2,
        data = ws1 ++ content ++ ws2 ->
        ascii_bytes data ->
        all_space (map to_N ws1) -> all_space (map to_N ws2) ->
        ~ In x0d content ->
        result o = inr (strip (map to_N content)))
  /\ (data = [] -> result o = inr []).
Proof.
  intros Hfile o. subst o.
  destruct (first_text_total data) as [content Hc].
  rewrite (read_file_run fs file_path data Hfile content Hc).
  cbn [result snd].
  split; [|split].
  - rewrite first_text_decoding in Hc.
    destruct (first_success _ encodings) as [decoded|]; [|discriminate].
    injection Hc as <-. eauto.
  - intros ws1 c ws2 Hdata Hascii Hws1 Hws2 Hcr.
    unfold encodings in Hc. cbn [first_success] in Hc.
    unfold read_text at 1 in Hc. cbn [incremental_decode] in Hc.
    rewrite (utf_8_decode_ascii Strict data Hascii) in Hc.
    injection Hc as <-. subst data. rewrite !map_app.
    destruct (universal_newlines_space_prefix _ _ (le_n _) Hws1
                (map to_N c ++ map to_N ws2)) as [w1 [Hw1 ->]].
    rewrite universal_newlines_app_no_CR.
    + rewrite strip_surrounded;
        auto using universal_newlines_all_space.
    + intros Hin. apply in_map_iff in Hin. destruct Hin as [b [Hb Hin]].
      apply Hcr. replace x0d with b; [exact Hin|].
      apply (f_equal of_N) in Hb. rewrite of_to_N in Hb. now injection Hb.
  - intros ->. cbn in Hc. injection Hc as <-. reflexivity.
Qed.

(** ** Errors of the file system *)

Lemma unreadable_run
    (scan_once : Json.scanner) (fs : filesystem) (file_path : string)
    (kind : os_error) :
  fs file_path = inl kind ->
  read_file file_path fs
    = ([EvOpen file_path (ModeText utf_8 Strict)], inl (OSError kind file_path))
  /\ load_json_file scan_once file_path fs
    = ([EvOpen file_path ModeBinary], inl (OSError kind file_path)).
Proof.
  intros Hfile. split.
  - unfold read_file, _read_text_with_fallback, encodings.
    cbn [read_text_loop].
    unfold bind at 1 2, try_except, open_text, bind at 1, open_raw, bind, log.
    rewrite Hfile. reflexivity.
  - unfold load_json_file, open_binary, bind at 1 2, open_raw, bind, log.
    rewrite Hfile. reflexivity.
Qed.

(** Whatever the file system holds, an exception of [read_file] is the
    [OSError] of [open]. *)
Lemma read_file_raises_only_oserror fs file_path e :
  result (read_file file_path fs) = inl e -> is_OSError e = true.
Proof.
  destruct (fs file_path) as [kind|data] eqn:Hfile.
  - destruct (unreadable_run (fun _ idx => Json.StopIteration idx) fs file_path
                kind Hfile) as [-> _].
    intros [= <-]. reflexivity.
  - destruct (first_text_total data) as [content Hc].
    rewrite (read_file_run fs file_path data Hfile content Hc). discriminate.
Qed.

(** C6. When the file cannot be opened, both functions raise the
    [OSError] of [open] as it is, on their first call of [open]; neither
    turns it into a decoding or JSON error. *)
Theorem file_access_error_propagates
    (scan_once : Json.scanner) (fs : filesystem) (file_path : string)
    (kind : os_error) :
  fs file_path = inl kind ->
  read_file file_path fs
    = ([EvOpen file_path (ModeText utf_8 Strict)], inl (OSError kind file_path))
  /\ load_json_file scan_once file_path fs
    = ([EvOpen file_path ModeBinary], inl (OSError kind file_path)).
Proof. exact (unreadable_run scan_once fs file_path kind). Qed.

(** ** Determinism *)

Lemma same_error_refl e : same_error e e.
Proof. destruct e; cbn; auto. Qed.

Lemma load_json_loop_fs_irrelevant scan_once data encs :
  forall last_error fs1 fs2,
    load_json_loop scan_once data encs last_error fs1
    = load_json_loop scan_once data encs last_error fs2.
Proof.
  induction encs as [|enc rest IH]; intros last_error fs1 fs2; [reflexivity|].
  rewrite !load_json_loop_step.
  destruct (decode enc Strict data) as [e|text].
  - now rewrite (IH (Some e) fs1 fs2).
  - destruct (Json.loads scan_once text) as [e|v]; [|reflexivity].
    now rewrite (IH (Some e) fs1 fs2).
Qed.

Lemma final_attempt_same_outcome scan_once data p1 p2 :
  fst (final_attempt p1 data scan_once) = fst (final_attempt p2 data scan_once)
  /\ same_outcome (snd (final_attempt p1 data scan_once))
       (snd (final_attempt p2 data scan_once)).
Proof.
  unfold final_attempt.
  destruct (decode utf_8 Replace data) as [e|text] eqn:E.
  - destruct (utf_8_replace_total data) as [t Ht]. congruence.
  - cbn [fst snd]. split; [reflexivity|].
    destruct (Json.loads scan_once text) as [e|v] eqn:L; [|reflexivity].
    destruct (loads_raises _ _ _ L) as [[msg [pos ->]]|[[w|n] ->]]; cbn; auto.
Qed.

(** C8. What a call returns is determined by what the file system holds at
    the path.  Two calls that find the same thing there (the same bytes,
    or the same reason for which the file cannot be opened) end alike:
    [read_file] with the same string, [load_json_file] with the same
    value, or both with an exception of the same kind; on the same path
    the two calls agree on everything, the message of the exception and
    the attempts made included. *)
Theorem calls_deterministic
    (scan_once : Json.scanner) (fs1 fs2 : filesystem) (p1 p2 : string) :
  fs1 p1 = fs2 p2 ->
  same_outcome (result (read_file p1 fs1)) (result (read_file p2 fs2))
  /\ same_outcome (result (load_json_file scan_once p1 fs1))
       (result (load_json_file scan_once p2 fs2))
  /\ (p1 = p2 ->
      read_file p1 fs1 = read_file p2 fs2
      /\ load_json_file scan_once p1 fs1 = load_json_file scan_once p2 fs2).
Proof.
  intros Hsame.
  destruct (fs2 p2) as [kind|data] eqn:H2.
  - destruct (unreadable_run scan_once fs1 p1 kind Hsame) as [-> ->].
    destruct (unreadable_run scan_once fs2 p2 kind H2) as [-> ->].
    cbn. repeat split; intros; subst; reflexivity.
  - destruct (first_text_total data) as [content Hc].
    rewrite (read_file_run fs1 p1 data Hsame content Hc).
    rewrite (read_file_run fs2 p2 data H2 content Hc).
    rewrite (load_json_file_run fs1 p1 data Hsame).
    rewrite (load_json_file_run fs2 p2 data H2).
    rewrite (load_json_loop_fs_irrelevant scan_once data encodings None fs1 fs2).
    destruct (load_json_loop scan_once data encodings None fs2) as [t [e|[v|last]]].
    + cbn [result snd same_outcome].
      repeat split; intros; subst; auto using same_error_refl.
    + cbn. repeat split; intros; subst; reflexivity.
    + destruct (final_attempt_same_outcome scan_once data p1 p2) as [Ht Ho].
      cbn [result snd fst same_outcome].
      repeat split; intros; subst; try assumption; reflexivity.
Qed.

(** ** Newlines *)

Lemma decoded_texts_are_decodings data encs :
  Forall (fun text => exists enc errors, decode enc errors data = inr text)
    (decoded_texts data encs).
Proof.
  unfold decoded_texts.
  induction encs as [|enc rest IH]; cbn [flat_map]; [constructor|].
  destruct (decode enc Strict data) as [e|text] eqn:E; cbn [app]; [exact IH|].
  constructor; [now exists enc, Strict | exact IH].
Qed.

(** The texts the loader hands to [json.loads] on a readable file. *)
Lemma load_json_file_parsed_texts scan_once fs file_path data :
  fs file_path = inr data ->
  exists last,
    parsed_texts (trace (load_json_file scan_once file_path fs))
    = decoded_texts data (attempted (attempt scan_once data) encodings) ++ last
    /\ (last = [] \/ exists text, decode utf_8 Replace data = inr text /\ last = [text]).
Proof.
  intros Hfile.
  rewrite (load_json_file_run fs file_path data Hfile).
  pose proof (load_json_loop_run scan_once data encodings None fs) as H.
  cbv zeta in H.
  destruct (load_json_loop scan_once data encodings None fs) as [t [e|[v|l]]];
    cbn [trace result fst snd] in H |- *; destruct H as (_ & H2 & _ & _);
    cbn [parsed_texts].
  - exists []. rewrite app_nil_r. auto.
  - exists []. rewrite app_nil_r. auto.
  - rewrite parsed_texts_app, H2. unfold final_attempt.
    destruct (decode utf_8 Replace data) as [e|text] eqn:E; cbn [fst parsed_texts].
    + exists []. auto.
    + exists [text]. split; [reflexivity|]. right. now exists text.
Qed.

Lemma crlf_ab_decoded_texts encs :
  Forall (eq crlf_ab_text) (decoded_texts crlf_ab encs).
Proof.
  unfold decoded_texts.
  induction encs as [|enc rest IH]; cbn [flat_map]; [constructor|].
  destruct enc; (apply Forall_app; split; [repeat constructor | exact IH]).
Qed.

(** C10. The two functions treat newlines differently.  [read_file] reads
    in text mode: the decoded text goes through the translation of
    newlines, which leaves no "\r" in it, before it is stripped.
    [load_json_file] decodes the bytes itself: every text it hands to the
    parser is one of the decodings of the bytes, as it is.  On a file
    with the bytes of "a\r\nb", [read_file] returns "a\nb", and every
    text the loader parses, the first one at least, is "a\r\nb". *)
Theorem newline_handling_differs
    (scan_once : Json.scanner) (fs : filesystem) (file_path : string)
    (data : bytes) :
  fs file_path = inr data ->
  let r := read_file file_path fs in
  let l := load_json_file scan_once file_path fs in
  (exists decoded,
      first_success (fun enc => incremental_decode enc Strict data) encodings
        = Some decoded
      /\ result r = inr (strip (universal_newlines decoded))
      /\ ~ In CR (universal_newlines decoded))
  /\ Forall (fun text => exists enc errors, decode enc errors data = inr text)
       (parsed_texts (trace l))
  /\ (data = crlf_ab ->
      result r = inr [97; 10; 98]
      /\ (exists more, parsed_texts (trace l) = [97; 13; 10; 98] :: more)
      /\ Forall (eq [97; 13; 10; 98]) (parsed_texts (trace l))).
Proof.
  intros Hfile r l. subst r l.
  destruct (load_json_file_parsed_texts scan_once fs file_path data Hfile)
    as [last [Hp Hlast]].
  rewrite Hp. clear Hp.
  destruct (first_text_total data) as [content Hc].
  rewrite (read_file_run fs file_path data Hfile content Hc).
  cbn [result snd].
  split; [|split].
  - rewrite first_text_decoding in Hc.
    destruct (first_success _ encodings) as [decoded|]; [|discriminate].
    injection Hc as <-. exists decoded. repeat split.
    apply (universal_newlines_no_CR (List.length decoded)). lia.
  - apply Forall_app. split; [apply decoded_texts_are_decodings|].
    destruct Hlast as [->|[text [Hd ->]]]; [constructor|].
    constructor; [now exists utf_8, Replace | constructor].
  - intros ->. split; [|split].
    + cbn in Hc. injection Hc as <-. reflexivity.
    + unfold encodings, decoded_texts. cbn [attempted flat_map app].
      change (decode utf_8 Strict crlf_ab) with (@inr exn str crlf_ab_text).
      cbn [app]. eauto.
    + apply Forall_app. split; [apply crlf_ab_decoded_texts|].
      destruct Hlast as [->|[text [Hd ->]]]; [constructor|].
      constructor; [|constructor].
      cbn in Hd. now injection Hd as <-.
Qed.

(** ** The statements at concrete files *)

Lemma load_json_file_first_success_wins_witness :
  let o := load_json_file Json.py_scan_once "config.json" bom_file in
  bom_file "config.json" = inr bom_braces
  /\ attempt Json.py_scan_once bom_braces utf_8_sig = inr (Json.JDict [])
  /\ result o = inr (Json.JDict [])
  /\ decode_attempts (trace o) = [(utf_8, Strict); (utf_8_sig, Strict)]
  /\ parsed_texts (trace o) = [[BOM; 123; 125]; [123; 125]]
  /\ opens (trace o) = 1%nat.
Proof.
  pose proof (load_json_file_first_success_wins Json.py_scan_once bom_file
                "config.json" bom_braces [utf_8] [cp1252; latin_1] utf_8_sig
                (Json.JDict []) eq_refl eq_refl
                ltac:(repeat constructor) ltac:(repeat constructor)
                eq_refl) as H.
  cbv zeta in H. destruct H as (_ & H1 & H2 & H3 & H4).
  repeat split; assumption.
Defined.

(** C4 as it stands does not hold: a combination may fail with an
    exception the loader does not catch.  On a file with a byte-order mark
    before an integer literal of 4301 digits every combination fails: the
    UTF-8 text and the text decoded with replacement are rejected for the
    mark, the Windows-1252 and Latin-1 texts for their first character,
    and under UTF-8 with BOM the parser raises the [ValueError] of [int].
    The call ends with that [ValueError] at the second attempt: no
    [JSONDecodeError], no message with the path. *)
Lemma load_json_file_final_error_counterexample :
  let o := load_json_file Json.py_scan_once "big.json" bom_long_number_file in
  bom_long_number_file "big.json" = inr bom_long_number
  /\ Forall (fun e => succeeded (attempt Json.py_scan_once bom_long_number e) = false)
       encodings
  /\ succeeded (snd (final_attempt "big.json" bom_long_number Json.py_scan_once))
     = false
  /\ attempt Json.py_scan_once bom_long_number utf_8_sig = inl long_number_error
  /\ result o = inl long_number_error
  /\ decode_attempts (trace o) = [(utf_8, Strict); (utf_8_sig, Strict)]
  /\ ~ (exists msg doc pos, result o = inl (JSONDecodeError msg doc pos)).
Proof.
  assert (Hr : result (load_json_file Json.py_scan_once "big.json"
                         bom_long_number_file) = inl long_number_error).
  { vm_compute. reflexivity. }
  cbv zeta. rewrite Hr.
  split; [reflexivity|].
  split; [repeat constructor; vm_compute; reflexivity|].
  split; [vm_compute; reflexivity|].
  split; [vm_compute; reflexivity|].
  split; [reflexivity|].
  split; [vm_compute; reflexivity|].
  intros (msg & doc & pos & H). discriminate H.
Qed.

Lemma load_json_file_final_error_witness :
  let o := load_json_file Json.py_scan_once "broken.json" brace_file in
  brace_file "broken.json" = inr open_brace
  /\ result o
     = inl (JSONDecodeError
              "Failed to decode/parse JSON from broken.json: Expecting property name enclosed in double quotes"
              [123] 1)
  /\ decode_attempts (trace o) = all_attempts.
Proof.
  pose proof (load_json_file_final_error Json.py_scan_once brace_file
                "broken.json" open_brace [123]
                "Expecting property name enclosed in double quotes" [123] 1
                eq_refl
                ltac:(repeat constructor) ltac:(repeat constructor)
                eq_refl eq_refl) as H.
  cbv zeta in H. destruct H as (H1 & _ & H2).
  repeat split; assumption.
Defined.

(** C5 without the early return does not hold.  On a file with a
    byte-order mark before [{}] the
    bytes decode under UTF-8, the text does not parse (the parser rejects
    the mark), and the call returns the empty dictionary after the second
    attempt, without trying Windows-1252, Latin-1 or the lossy decoding,
    and without failing. *)
Lemma load_json_file_retries_all_counterexample :
  let o := load_json_file Json.py_scan_once "config.json" bom_file in
  bom_file "config.json" = inr bom_braces
  /\ decode utf_8 Strict bom_braces = inr [BOM; 123; 125]
  /\ Json.loads Json.py_scan_once [BOM; 123; 125]
     = inl (JSONDecodeError "Unexpected UTF-8 BOM (decode using utf-8-sig)"
              [BOM; 123; 125] 0)
  /\ result o = inr (Json.JDict [])
  /\ decode_attempts (trace o) = [(utf_8, Strict); (utf_8_sig, Strict)]
  /\ ~ (decode_attempts (trace o) = all_attempts /\ succeeded (result o) = false).
Proof.
  repeat split. intros [H _]. discriminate H.
Qed.

Lemma load_json_file_retries_after_parse_error_witness :
  let o := load_json_file Json.py_scan_once "config.json" bom_file in
  let o' := load_json_file Json.py_scan_once "broken.json" brace_file in
  (decode utf_8 Strict bom_braces = inr [BOM; 123; 125]
   /\ attempt Json.py_scan_once bom_braces utf_8_sig = inr (Json.JDict [])
   /\ result o = inr (Json.JDict [])
   /\ decode_attempts (trace o) = [(utf_8, Strict); (utf_8_sig, Strict)])
  /\ (decode utf_8 Strict open_brace = inr [123]
      /\ Forall (fun e => rejected (attempt Json.py_scan_once open_brace e) = true)
           [utf_8_sig; cp1252; latin_1]
      /\ decode_attempts (trace o') = all_attempts).
Proof.
  pose proof (load_json_file_retries_after_parse_error Json.py_scan_once
                bom_file "config.json" bom_braces [BOM; 123; 125]
                "Unexpected UTF-8 BOM (decode using utf-8-sig)"
                [BOM; 123; 125] 0
                eq_refl eq_refl eq_refl) as H.
  pose proof (load_json_file_retries_after_parse_error Json.py_scan_once
                brace_file "broken.json" open_brace [123]
                "Expecting property name enclosed in double quotes" [123] 1
                eq_refl eq_refl eq_refl) as H'.
  cbv zeta in H, H'.
  destruct H as (_ & H & _). destruct H' as (_ & _ & _ & H' & _).
  destruct (H [] utf_8_sig [cp1252; latin_1] (Json.JDict []) eq_refl
              (Forall_nil _) eq_refl) as [H1 H2].
  assert (Hall : Forall
                   (fun e => rejected (attempt Json.py_scan_once open_brace e) = true)
                   [utf_8_sig; cp1252; latin_1]).
  { repeat constructor. }
  pose proof (H' Hall) as H3.
  repeat split; assumption.
Defined.

Lemma load_json_file_bom_witness :
  let o := load_json_file Json.py_scan_once "config.json" bom_file in
  bom_file "config.json" = inr (BOM_UTF8 ++ [x7b; x7d])
  /\ decode utf_8 Strict [x7b; x7d] = inr [123; 125]
  /\ Json.loads Json.py_scan_once [123; 125] = inr (Json.JDict [])
  /\ result o = inr (Json.JDict []).
Proof.
  pose proof (load_json_file_bom Json.py_scan_once bom_file "config.json"
                [x7b; x7d] [123; 125] (Json.JDict [])
                eq_refl eq_refl eq_refl) as H.
  cbv zeta in H. destruct H as (H1 & _).
  repeat split; assumption.
Defined.

Lemma read_file_returns_string_witness :
  latin_file "legacy.txt" = inr [x81]
  /\ exists content, result (read_file "legacy.txt" latin_file) = inr (strip content).
Proof.
  split; [reflexivity|].
  destruct (read_file_returns_string latin_file "legacy.txt" [x81] eq_refl)
    as [content (_ & H & _)].
  exists content. exact H.
Defined.

Lemma read_text_fallback_unreachable_witness :
  latin_file "legacy.txt" = inr [x81]
  /\ (opens (trace (_read_text_with_fallback "legacy.txt" latin_file)) <= 4)%nat.
Proof.
  split; [reflexivity|].
  destruct (read_text_fallback_unreachable latin_file "legacy.txt" [x81] eq_refl)
    as (_ & _ & [_ H] & _).
  exact H.
Defined.

(** C3 without the translation of newlines does not hold.  On the ASCII
    file [ a\r\nb ] the content between the two spaces is "a\r\nb", and
    [read_file] returns "a\nb". *)
Lemma read_file_content_counterexample :
  crlf_file "notes.txt" = inr crlf_text
  /\ ascii_bytes crlf_text
  /\ decode utf_8 Strict crlf_text = inr [32; 97; 13; 10; 98; 32]
  /\ strip [32; 97; 13; 10; 98; 32] = [97; 13; 10; 98]
  /\ result (read_file "notes.txt" crlf_file) = inr [97; 10; 98]
  /\ ~ returns_content_stripped crlf_text (result (read_file "notes.txt" crlf_file)).
Proof.
  repeat split; try (repeat constructor).
  intros H. discriminate H.
Qed.

Lemma read_file_stripped_text_witness :
  padded_file "hi.txt" = inr padded_hi
  /\ result (read_file "hi.txt" padded_file) = inr [104; 105].
Proof.
  split; [reflexivity|].
  destruct (read_file_stripped_text padded_file "hi.txt" padded_hi eq_refl)
    as (_ & H & _).
  apply (H [x20] [x68; x69] [x0a]).
  - reflexivity.
  - repeat constructor.
  - repeat constructor.
  - repeat constructor.
  - intros [E|[E|[]]]; discriminate E.
Defined.

Lemma file_access_error_propagates_witness :
  bom_file "missing.json" = inl FileNotFoundError
  /\ result (read_file "missing.json" bom_file)
     = inl (OSError FileNotFoundError "missing.json")
  /\ result (load_json_file Json.py_scan_once "missing.json" bom_file)
     = inl (OSError FileNotFoundError "missing.json").
Proof.
  destruct (file_access_error_propagates Json.py_scan_once bom_file
              "missing.json" FileNotFoundError eq_refl) as [H1 H2].
  rewrite H1, H2. repeat split.
Defined.

Lemma calls_deterministic_witness :
  crlf_file "notes.txt" = crlf_file' "notes.txt"
  /\ read_file "notes.txt" crlf_file = read_file "notes.txt" crlf_file'
  /\ load_json_file Json.py_scan_once "notes.txt" crlf_file
     = load_json_file Json.py_scan_once "notes.txt" crlf_file'.
Proof.
  split; [reflexivity|].
  destruct (calls_deterministic Json.py_scan_once crlf_file crlf_file'
              "notes.txt" "notes.txt" eq_refl) as (_ & _ & H).
  exact (H eq_refl).
Defined.

Lemma newline_handling_differs_witness :
  crlf_ab_file "lines.txt" = inr crlf_ab
  /\ result (read_file "lines.txt" crlf_ab_file) = inr [97; 10; 98]
  /\ Forall (eq [97; 13; 10; 98])
       (parsed_texts (trace (load_json_file Json.py_scan_once "lines.txt" crlf_ab_file))).
Proof.
  split; [reflexivity|].
  destruct (newline_handling_differs Json.py_scan_once crlf_ab_file "lines.txt"
              crlf_ab eq_refl) as (_ & _ & H).
  destruct (H eq_refl) as (H1 & _ & H2).
  split; assumption.
Defined.

(** ** The model on inputs of the specification's test list *)

(** The UTF-8 file [{"a": 1}] loads as the dictionary with the key "a". *)
Example load_utf8_object :
  load_json_file Json.py_scan_once "a.json"
    (single_file "a.json" [x7b; x22; x61; x22; x3a; x20; x31; x7d])
  = ([EvOpen "a.json" ModeBinary; EvDecode utf_8 Strict;
      EvLoads [123; 34; 97; 34; 58; 32; 49; 125]],
     inr (Json.JDict [([97], Json.JInt 1)])).
Proof. reflexivity. Qed.

(** Windows-1252 curly quotes around "a": UTF-8 and UTF-8 with BOM reject
    the bytes, Windows-1252 gives U+201C and U+201D. *)
Example read_cp1252_quotes :
  read_file "q.txt" (single_file "q.txt" [x93; x61; x94])
  = ([strict_open "q.txt" utf_8; strict_open "q.txt" utf_8_sig;
      strict_open "q.txt" cp1252],
     inr [0x201C; 97; 0x201D]).
Proof. reflexivity. Qed.

(** An empty file reads as the empty string, at the first attempt. *)
Example read_empty_file :
  read_file "e.txt" (single_file "e.txt" [])
  = ([strict_open "e.txt" utf_8], inr []).
Proof. reflexivity. Qed.

(** Bytes that are no JSON under any candidate: the loader fails with the
    path in the message. *)
Example load_binary_garbage :
  result (load_json_file Json.py_scan_once "blob.bin"
            (single_file "blob.bin" [xff; xfe; x00]))
  = inl (JSONDecodeError
           "Failed to decode/parse JSON from blob.bin: Expecting value"
           [0xFFFD; 0xFFFD; 0] 0).
Proof. reflexivity. Qed.

(** The first two bytes of a byte-order mark alone: strict UTF-8 rejects
    them, and the incremental UTF-8-with-BOM decoder of the text reader
    holds them back, so that the file reads as the empty string. *)
Example read_truncated_bom :
  read_file "t.txt" (single_file "t.txt" [xef; xbb])
  = ([strict_open "t.txt" utf_8; strict_open "t.txt" utf_8_sig], inr []).
Proof. reflexivity. Qed.

(** The decoder on a four-byte sequence, on a surrogate and on a sequence
    cut short. *)
Example utf_8_four_bytes : decode utf_8 Strict [xf0; x9f; x98; x80] = inr [0x1F600].
Proof. reflexivity. Qed.

Example utf_8_surrogate_rejected :
  decode utf_8 Strict [xed; xa0; x80]
  = inl (UnicodeDecodeError "utf-8" 0 1 "invalid continuation byte").
Proof. reflexivity. Qed.

Example utf_8_truncated_replaced :
  decode utf_8 Replace [x61; xf0; x9f; x98] = inr [97; 0xFFFD].
Proof. reflexivity. Qed.

(** The parser on a trailing comma and on a repeated key. *)
Example loads_trailing_comma :
  Json.loads Json.py_scan_once [91; 49; 44; 93]
  = inl (JSONDecodeError "Expecting value" [91; 49; 44; 93] 3).
Proof. reflexivity. Qed.

Example loads_repeated_key :
  Json.loads Json.py_scan_once
    [123; 34; 97; 34; 58; 49; 44; 34; 97; 34; 58; 50; 125]
  = inr (Json.JDict [([97], Json.JInt 2)]).
Proof. reflexivity. Qed.

(** The parser at the limits of the interpreter: an integer literal of
    4301 digits, one of 4300 digits, and arrays nested 995 and 994 deep.
    The loader lets the two exceptions through. *)
Example loads_long_integer :
  Json.loads Json.py_scan_once (repeat 49 4301) = inl long_number_error.
Proof. vm_compute. reflexivity. Qed.

Example loads_longest_integer :
  succeeded (Json.loads Json.py_scan_once (repeat 49 4300)) = true.
Proof. vm_compute. reflexivity. Qed.

Example loads_deep_nesting :
  Json.loads Json.py_scan_once (repeat 91 995)
  = inl (RecursionError
           "maximum recursion depth exceeded while decoding a JSON array from a unicode string").
Proof. vm_compute. reflexivity. Qed.

Example loads_deepest_nesting :
  succeeded (Json.loads Json.py_scan_once (repeat 91 994 ++ repeat 93 994))
  = true.
Proof. vm_compute. reflexivity. Qed.

Example load_long_integer :
  let o := load_json_file Json.py_scan_once "big.json" long_number_file in
  result o = inl long_number_error
  /\ decode_attempts (trace o) = [(utf_8, Strict)].
Proof. vm_compute. split; reflexivity. Qed.

Example load_deep_nesting :
  let o := load_json_file Json.py_scan_once "deep.json"
             (single_file "deep.json" (repeat x5b 995)) in
  result o
  = inl (RecursionError
           "maximum recursion depth exceeded while decoding a JSON array from a unicode string")
  /\ decode_attempts (trace o) = [(utf_8, Strict)].
Proof. vm_compute. split; reflexivity. Qed.

(** * Further properties of the two functions *)

(** ** What [strip] leaves *)

Lemma lstrip_split t : exists ws, all_space ws /\ t = ws ++ lstrip t.
Proof.
  induction t as [|c t [ws [Hws IH]]]; [exists []; split; [constructor | reflexivity]|].
  cbn [lstrip]. destruct (isspace c) eqn:Ec.
  - exists (c :: ws). split; [constructor; assumption|]. cbn [app]. now f_equal.
  - exists []. split; [constructor | reflexivity].
Qed.

Lemma lstrip_head t c l : lstrip t = c :: l -> isspace c = false.
Proof.
  induction t as [|x t IH]; cbn [lstrip]; [discriminate|].
  destruct (isspace x) eqn:Ex; [exact IH|].
  intros [= <- _]. exact Ex.
Qed.

Lemma lstrip_fixed c l : isspace c = false -> lstrip (c :: l) = c :: l.
Proof. intros H. cbn [lstrip]. now rewrite H. Qed.

(** [rstrip] cuts a run of whitespace off the end. *)
Lemma rstrip_split t : exists ws, all_space ws /\ t = rstrip t ++ ws.
Proof.
  destruct (lstrip_split (rev t)) as [ws [Hws H]].
  exists (rev ws). split; [now apply all_space_rev|].
  unfold rstrip. rewrite <- rev_app_distr, <- H. now rewrite rev_involutive.
Qed.

Lemma rstrip_last t l c : rstrip t = l ++ [c] -> isspace c = false.
Proof.
  unfold rstrip. intros H. apply (f_equal (@rev N)) in H.
  rewrite rev_involutive, rev_app_distr in H. cbn [rev app] in H.
  exact (lstrip_head _ _ _ H).
Qed.

Lemma rstrip_fixed l c : isspace c = false -> rstrip (l ++ [c]) = l ++ [c].
Proof.
  intros H. unfold rstrip. rewrite rev_app_distr. cbn [rev app].
  rewrite (lstrip_fixed _ _ H). cbn [rev]. now rewrite rev_involutive.
Qed.

(** A non-blank character at the front stays at the front. *)
Lemma rstrip_cons c t : isspace c = false -> rstrip (c :: t) = c :: rstrip t.
Proof.
  intros H. unfold rstrip. cbn [rev]. rewrite lstrip_app.
  destruct (lstrip (rev t)) as [|x l] eqn:E.
  - cbn [lstrip]. rewrite H. reflexivity.
  - rewrite rev_app_distr. reflexivity.
Qed.

Lemma strip_head t c l : strip t = c :: l -> isspace c = false.
Proof.
  unfold strip. intros H.
  destruct (rstrip_split (lstrip t)) as [ws [_ Hs]].
  rewrite H in Hs. cbn [app] in Hs. exact (lstrip_head _ _ _ Hs).
Qed.

Lemma strip_last t l c : strip t = l ++ [c] -> isspace c = false.
Proof. unfold strip. apply rstrip_last. Qed.

Lemma strip_idempotent t : strip (strip t) = strip t.
Proof.
  destruct (strip t) as [|c l] eqn:E; [reflexivity|].
  pose proof (strip_head _ _ _ E) as Hc.
  unfold strip at 1. rewrite (lstrip_fixed _ _ Hc).
  destruct (exists_last (l := c :: l) ltac:(discriminate)) as [l' [x Hx]].
  rewrite Hx. apply rstrip_fixed.
  rewrite Hx in E. exact (strip_last _ _ _ E).
Qed.

(** X1. The string [read_file] returns on a readable file does not begin
    and does not end with a whitespace character, and stripping it again
    changes nothing. *)
Theorem read_file_returns_stripped
    (fs : filesystem) (file_path : string) (data : bytes) (s : str) :
  fs file_path = inr data ->
  result (read_file file_path fs) = inr s ->
  (forall c l, s = c :: l -> isspace c = false)
  /\ (forall l c, s = l ++ [c] -> isspace c = false)
  /\ strip s = s.
Proof.
  intros Hfile Hres.
  destruct (first_text_total data) as [content Hc].
  rewrite (read_file_run fs file_path data Hfile content Hc) in Hres.
  cbn [result snd] in Hres. injection Hres as <-.
  split; [|split].
  - intros c l. apply strip_head.
  - intros l c. apply strip_last.
  - apply strip_idempotent.
Qed.

(** ** The candidates against each other *)

Lemma starts_with_bom_true data :
  starts_with_bom data = true -> exists rest, data = BOM_UTF8 ++ rest.
Proof.
  destruct data as [|b0 [|b1 [|b2 rest]]]; try discriminate.
  cbn [starts_with_bom]. intros H.
  apply andb_true_iff in H. destruct H as [H H2].
  apply andb_true_iff in H. destruct H as [H0 H1].
  apply byte_dec_bl in H0, H1, H2. subst. now exists rest.
Qed.

Lemma bom_startswith_true data :
  bom_startswith data = true -> data = [] \/ data = [xef] \/ data = [xef; xbb].
Proof.
  destruct data as [|b0 [|b1 [|b2 rest]]]; cbn [bom_startswith]; try discriminate.
  - auto.
  - intros H. apply byte_dec_bl in H. subst. auto.
  - intros H. apply andb_true_iff in H. destruct H as [H0 H1].
    apply byte_dec_bl in H0, H1. subst. auto.
Qed.

(** Bytes that strict UTF-8 rejects after a mark are rejected on their
    own too. *)
Lemma utf_8_rejects_after_bom rest e :
  decode utf_8 Strict (BOM_UTF8 ++ rest) = inl e ->
  exists e', decode utf_8 Strict rest = inl e'.
Proof.
  intros H. destruct (decode utf_8 Strict rest) as [e'|t] eqn:E; [eauto|].
  rewrite (utf_8_decode_bom rest t E) in H. discriminate.
Qed.

(** What strict UTF-8 rejects, [bytes.decode] with UTF-8-with-BOM rejects. *)
Lemma utf_8_sig_rejects_what_utf_8_rejects data e :
  decode utf_8 Strict data = inl e ->
  exists e', decode utf_8_sig Strict data = inl e'.
Proof.
  intros H. cbn [decode]. unfold utf_8_sig_decode.
  destruct (starts_with_bom data) eqn:B; [|eauto].
  destruct (starts_with_bom_true data B) as [rest ->].
  exact (utf_8_rejects_after_bom rest e H).
Qed.

(** The incremental decoder does the same, except on a mark cut short,
    which it reads as the empty text. *)
Lemma utf_8_sig_incremental_after_utf_8 data e :
  decode utf_8 Strict data = inl e ->
  (exists e', incremental_decode utf_8_sig Strict data = inl e')
  \/ ((data = [xef] \/ data = [xef; xbb])
      /\ incremental_decode utf_8_sig Strict data = inr []).
Proof.
  intros H. cbn [incremental_decode]. unfold utf_8_sig_incremental.
  destruct (List.length data <? 3)%nat eqn:L.
  - destruct (bom_startswith data) eqn:B; [|left; eauto].
    right. split; [|reflexivity].
    destruct (bom_startswith_true data B) as [->|[->| ->]]; auto.
    discriminate H.
  - left. destruct (starts_with_bom data) eqn:B; [|eauto].
    destruct (starts_with_bom_true data B) as [rest ->].
    exact (utf_8_rejects_after_bom rest e H).
Qed.

Lemma same_text_strict_error reason p len r r' :
  same_text (on_error Strict reason p len r) r'.
Proof. intros t H. discriminate H. Qed.

(** Where strict UTF-8 decoding succeeds, decoding with replacement gives
    the same text. *)
Lemma utf_8_replace_agrees_from :
  forall n s p q, (List.length s <= n)%nat ->
    same_text (utf_8_decode_from Strict p s) (utf_8_decode_from Replace q s).
Proof.
  induction n as [|n IH]; intros s p q Hlen.
  - destruct s; [intros t H; exact H | simpl in Hlen; lia].
  - destruct s as [|c s1]; [intros t H; exact H|].
    cbn [utf_8_decode_from].
    utf8_branches2 same_text_emit same_text_strict_error IH.
Qed.

Lemma utf_8_replace_agrees data text :
  decode utf_8 Strict data = inr text -> decode utf_8 Replace data = inr text.
Proof. apply (utf_8_replace_agrees_from (List.length data)). lia. Qed.

Lemma cp1252_table_ascii b : to_N b < 0x80 -> cp1252_table b = Some (to_N b).
Proof. destruct b; intros H; try reflexivity; vm_compute in H; discriminate H. Qed.

Lemma charmap_decode_from_ascii errors data :
  ascii_bytes data ->
  forall pos, charmap_decode_from errors pos data = inr (map to_N data).
Proof.
  induction 1 as [|b data Hb _ IH]; intros pos; [reflexivity|].
  cbn [charmap_decode_from map]. now rewrite (cp1252_table_ascii b Hb), IH.
Qed.

Lemma starts_with_bom_ascii data : ascii_bytes data -> starts_with_bom data = false.
Proof.
  intros H. destruct (starts_with_bom data) eqn:B; [|reflexivity].
  destruct (starts_with_bom_true data B) as [rest ->].
  inversion H as [|? ? Hb _]. vm_compute in Hb. discriminate Hb.
Qed.

(** On ASCII bytes the four candidates and the lossy decoding all give the
    same text. *)
Lemma decode_ascii enc errors data :
  ascii_bytes data -> decode enc errors data = inr (map to_N data).
Proof.
  intros H. destruct enc; cbn [decode].
  - now apply utf_8_decode_ascii.
  - unfold utf_8_sig_decode. rewrite (starts_with_bom_ascii data H).
    now apply (utf_8_decode_ascii errors).
  - now apply charmap_decode_from_ascii.
  - reflexivity.
Qed.

(** Strict Windows-1252 decodes exactly the byte sequences without an
    undefined byte. *)
Lemma charmap_decode_from_defined data :
  existsb cp1252_undefined data = false ->
  forall pos, charmap_decode_from Strict pos data = inr (map cp1252_char data).
Proof.
  induction data as [|b data IH]; intros H pos; [reflexivity|].
  cbn [existsb] in H. apply orb_false_iff in H. destruct H as [Hb Hd].
  cbn [charmap_decode_from map]. unfold cp1252_undefined, cp1252_char in *.
  destruct (cp1252_table b); [|discriminate]. now rewrite (IH Hd).
Qed.

Lemma charmap_decode_from_undefined data :
  existsb cp1252_undefined data = true ->
  forall pos, exists e, charmap_decode_from Strict pos data = inl e.
Proof.
  induction data as [|b data IH]; intros H pos; [discriminate|].
  cbn [existsb] in H. cbn [charmap_decode_from].
  unfold cp1252_undefined in H at 1.
  destruct (cp1252_table b); [|eauto].
  cbn [orb] in H. destruct (IH H (pos + 1)%nat) as [e ->]. cbn [emit]. eauto.
Qed.

(** ** Which candidate the text reader ends on *)

(** A file that is valid UTF-8 is read as UTF-8, with one call of [open]. *)
Lemma read_file_utf_8 fs file_path data text :
  fs file_path = inr data ->
  decode utf_8 Strict data = inr text ->
  read_file file_path fs
  = ([strict_open file_path utf_8], inr (strip (universal_newlines text))).
Proof.
  intros Hfile Hdec.
  assert (Hr : read_text utf_8 Strict data = inr (universal_newlines text)).
  { unfold read_text. cbn [incremental_decode]. now rewrite Hdec. }
  rewrite (read_file_run fs file_path data Hfile (universal_newlines text)).
  - unfold encodings. cbn [tried]. rewrite Hr. reflexivity.
  - unfold encodings. cbn [first_success]. now rewrite Hr.
Qed.

(** X2. [read_file] does not remove a byte-order mark.  On a file that is
    the mark followed by valid UTF-8, the plain UTF-8 candidate comes first
    and accepts the bytes, so the string returned begins with U+FEFF, and
    whitespace that follows the mark is kept: only the end is stripped. *)
Theorem read_file_keeps_bom
    (fs : filesystem) (file_path : string) (body : bytes) (text : str) :
  fs file_path = inr (BOM_UTF8 ++ body) ->
  decode utf_8 Strict body = inr text ->
  read_file file_path fs
  = ([strict_open file_path utf_8],
     inr (BOM :: rstrip (universal_newlines text))).
Proof.
  intros Hfile Hdec.
  rewrite (read_file_utf_8 fs file_path _ (BOM :: text) Hfile
             (utf_8_decode_bom body text Hdec)).
  do 2 f_equal.
  change (universal_newlines (BOM :: text)) with (BOM :: universal_newlines text).
  unfold strip. rewrite (lstrip_fixed BOM _ eq_refl).
  now rewrite (rstrip_cons BOM _ eq_refl).
Qed.

Lemma open_modes_of_read_file fs file_path data :
  fs file_path = inr data ->
  open_modes (trace (read_file file_path fs))
  = map (fun enc => ModeText enc Strict)
      (tried (fun enc => read_text enc Strict data) encodings).
Proof.
  intros Hfile. destruct (first_text_total data) as [content Hc].
  rewrite (read_file_run fs file_path data Hfile content Hc).
  cbn [trace fst]. apply open_modes_strict_opens.
Qed.

(** X3. In [read_file] the UTF-8-with-BOM candidate is all but dead: a
    call that ends on it, after two calls of [open], has read a file made
    of the first byte or the first two bytes of a byte-order mark, and
    returns the empty string. *)
Theorem read_file_second_candidate
    (fs : filesystem) (file_path : string) (data : bytes) :
  fs file_path = inr data ->
  open_modes (trace (read_file file_path fs))
    = [ModeText utf_8 Strict; ModeText utf_8_sig Strict] ->
  (data = [xef] \/ data = [xef; xbb])
  /\ result (read_file file_path fs) = inr [].
Proof.
  intros Hfile Hmodes.
  rewrite (open_modes_of_read_file fs file_path data Hfile) in Hmodes.
  destruct (first_text_total data) as [content Hc].
  rewrite (read_file_run fs file_path data Hfile content Hc).
  cbn [result snd].
  unfold encodings in Hmodes, Hc. cbn [tried first_success map] in Hmodes, Hc.
  unfold read_text in Hmodes at 1. unfold read_text in Hc at 1.
  cbn [incremental_decode] in Hmodes, Hc.
  destruct (decode utf_8 Strict data) as [e|t] eqn:E;
    cbn [succeeded map] in Hmodes; [|discriminate Hmodes].
  unfold read_text in Hmodes at 1. unfold read_text in Hc at 1.
  destruct (utf_8_sig_incremental_after_utf_8 data e E) as [[e' H]|[Hd H]];
    rewrite H in Hmodes, Hc.
  - cbn [succeeded map] in Hmodes.
    destruct (succeeded (read_text cp1252 Strict data)); discriminate Hmodes.
  - injection Hc as <-. split; [exact Hd | reflexivity].
Qed.

Lemma read_file_not_utf_8
    (fs : filesystem) (file_path : string) (data : bytes) (e : exn) :
  fs file_path = inr data ->
  decode utf_8 Strict data = inl e ->
  data <> [xef] -> data <> [xef; xbb] ->
  read_file file_path fs
  = if existsb cp1252_undefined data
    then (map (strict_open file_path) [utf_8; utf_8_sig; cp1252; latin_1],
          inr (strip (universal_newlines (map to_N data))))
    else (map (strict_open file_path) [utf_8; utf_8_sig; cp1252],
          inr (strip (universal_newlines (map cp1252_char data)))).
Proof.
  intros Hfile Hdec H1 H2.
  assert (Hu : exists e', read_text utf_8 Strict data = inl e').
  { unfold read_text. cbn [incremental_decode]. rewrite Hdec. eauto. }
  assert (Hs : exists e', read_text utf_8_sig Strict data = inl e').
  { unfold read_text.
    destruct (utf_8_sig_incremental_after_utf_8 data e Hdec) as [[e' ->]|[[Hd|Hd] _]];
      [eauto | contradiction | contradiction]. }
  destruct Hu as [eu Hu], Hs as [es Hs].
  destruct (existsb cp1252_undefined data) eqn:U.
  - destruct (charmap_decode_from_undefined data U 0%nat) as [ec Hc].
    assert (Hw : read_text cp1252 Strict data = inl ec).
    { unfold read_text. cbn [incremental_decode decode]. unfold cp1252_decode.
      now rewrite Hc. }
    rewrite (read_file_run fs file_path data Hfile
               (universal_newlines (map to_N data))).
    + unfold encodings. cbn [tried]. rewrite Hu, Hs, Hw. reflexivity.
    + unfold encodings. cbn [first_success]. rewrite Hu, Hs, Hw. reflexivity.
  - assert (Hw : read_text cp1252 Strict data
                 = inr (universal_newlines (map cp1252_char data))).
    { unfold read_text. cbn [incremental_decode decode]. unfold cp1252_decode.
      now rewrite (charmap_decode_from_defined data U). }
    rewrite (read_file_run fs file_path data Hfile
               (universal_newlines (map cp1252_char data))).
    + unfold encodings. cbn [tried]. rewrite Hu, Hs, Hw. reflexivity.
    + unfold encodings. cbn [first_success]. rewrite Hu, Hs, Hw. reflexivity.
Qed.

(** X4. A file that is not valid UTF-8 (and not a mark cut short) is read
    as Windows-1252 when none of its bytes is one of the five that
    Windows-1252 leaves undefined, after three calls of [open]; a single
    such byte anywhere makes the whole file read as Latin-1, after four. *)
Theorem read_file_windows_or_latin
    (fs : filesystem) (file_path : string) (data : bytes) (e : exn) :
  fs file_path = inr data ->
  decode utf_8 Strict data = inl e ->
  data <> [xef] -> data <> [xef; xbb] ->
  read_file file_path fs
  = if existsb cp1252_undefined data
    then (map (strict_open file_path) [utf_8; utf_8_sig; cp1252; latin_1],
          inr (strip (universal_newlines (map to_N data))))
    else (map (strict_open file_path) [utf_8; utf_8_sig; cp1252],
          inr (strip (universal_newlines (map cp1252_char data)))).
Proof. exact (read_file_not_utf_8 fs file_path data e). Qed.

(** ** How a call of the loader can end *)

Lemma opens_app a b : opens (a ++ b) = (opens a + opens b)%nat.
Proof. unfold opens. now rewrite filter_app, length_app. Qed.

Lemma decoded_texts_app data a b :
  decoded_texts data (a ++ b) = decoded_texts data a ++ decoded_texts data b.
Proof. unfold decoded_texts. apply flat_map_app. Qed.

Lemma decoded_texts_length data encs :
  (List.length (decoded_texts data encs) <= List.length encs)%nat.
Proof.
  unfold decoded_texts. induction encs as [|enc rest IH]; [reflexivity|].
  cbn [flat_map]. rewrite length_app. cbn [List.length].
  destruct (decode enc Strict data); cbn [List.length]; lia.
Qed.

(** How a call that raises has ended. *)
Lemma load_json_file_failure scan_once fs file_path e :
  result (load_json_file scan_once file_path fs) = inl e ->
  (exists kind, fs file_path = inl kind /\ e = OSError kind file_path)
  \/ (exists data text msg pos,
         fs file_path = inr data
         /\ decode utf_8 Replace data = inr text
         /\ Json.loads scan_once text = inl (JSONDecodeError msg text pos)
         /\ e = JSONDecodeError (failed_message file_path msg) text pos
         /\ Forall (fun enc => rejected (attempt scan_once data enc) = true)
              encodings
         /\ decode_attempts (trace (load_json_file scan_once file_path fs))
            = all_attempts)
  \/ (exists data l enc errors text attempts,
         fs file_path = inr data
         /\ e = Json.limit_error l
         /\ decode_attempts (trace (load_json_file scan_once file_path fs))
            = attempts ++ [(enc, errors)]
         /\ In (enc, errors) all_attempts
         /\ decode enc errors data = inr text
         /\ Json.loads scan_once text = inl e).
Proof.
  destruct (fs file_path) as [kind|data] eqn:Hfile.
  - destruct (unreadable_run scan_once fs file_path kind Hfile) as [_ ->].
    intros [= <-]. left. eauto.
  - intros Hres. right.
    destruct (load_json_file_cases scan_once fs file_path data Hfile)
      as [(pre & enc & post & Hs & _ & Hr & Ho & Ha & _)|(Hall & Ho & Ha & _)].
    + right. rewrite Hres in Ho. symmetry in Ho.
      rewrite Ho in Hr. cbn [rejected] in Hr.
      destruct (attempt_escapes _ _ _ _ Ho Hr) as (text & l & Hd & Hl & ->).
      exists data, l, enc, Strict, text, (map (fun x => (x, Strict)) pre).
      rewrite Ha, map_app. cbn [map].
      split; [reflexivity|]. split; [reflexivity|]. split; [reflexivity|].
      split; [|split; assumption].
      unfold all_attempts. apply in_or_app. left.
      apply (in_map (fun x => (x, Strict))). rewrite Hs.
      apply in_or_app. right. now left.
    + rewrite Hres in Ho. unfold final_attempt in Ho.
      destruct (utf_8_replace_total data) as [text Ht]. rewrite Ht in Ho.
      cbn [snd] in Ho.
      destruct (Json.loads scan_once text) as [e'|v] eqn:L; [|discriminate].
      destruct (loads_raises _ _ _ L) as [[msg [pos ->]]|[l ->]].
      * left. injection Ho as ->. exists data, text, msg, pos. auto 10.
      * right.
        assert (e = Json.limit_error l) as ->.
        { destruct l; cbn in Ho; now injection Ho. }
        exists data, l, utf_8, Replace, text,
          (map (fun x => (x, Strict)) encodings).
        rewrite Ha.
        split; [reflexivity|]. split; [reflexivity|]. split; [reflexivity|].
        split; [|split; assumption].
        unfold all_attempts. apply in_or_app. right. now left.
Qed.


(** X6. On a file that is valid UTF-8, a call of the loader that raises a
    [JSONDecodeError] reports the error [json.loads] found in the UTF-8
    text: the document is that text, the position is that of the UTF-8
    parse error and the message is its message after the path; the errors
    met on the way, under Windows-1252 and Latin-1, are dropped. *)
Theorem load_json_file_utf_8_error
    (scan_once : Json.scanner) (fs : filesystem) (file_path : string)
    (data : bytes) (text : str) (msg : string) (doc : str) (pos : nat) (e : exn) :
  fs file_path = inr data ->
  decode utf_8 Strict data = inr text ->
  Json.loads scan_once text = inl (JSONDecodeError msg doc pos) ->
  result (load_json_file scan_once file_path fs) = inl e ->
  is_JSONDecodeError e = true ->
  e = JSONDecodeError (failed_message file_path msg) text pos.
Proof.
  intros Hfile Hdec Hloads Hres Hjson.
  destruct (load_json_file_failure scan_once fs file_path e Hres)
    as [[kind [Hk _]]
       |[(data' & text' & msg' & pos' & Hf & Hr & Hl & -> & _)
        |(data' & [w|n] & enc & errors & text' & attempts & _ & -> & _)]].
  - congruence.
  - assert (data' = data) as -> by congruence.
    rewrite (utf_8_replace_agrees data text Hdec) in Hr. injection Hr as <-.
    rewrite Hloads in Hl. now injection Hl as -> _ ->.
  - discriminate Hjson.
  - discriminate Hjson.
Qed.

(** X7. Whatever [load_json_file] returns is what [json.loads] gave for
    the text of the last decoding attempt it made: one of the four strict
    decodings of the bytes, or the UTF-8 decoding with replacement. *)
Theorem load_json_file_value_provenance
    (scan_once : Json.scanner) (fs : filesystem) (file_path : string)
    (data : bytes) (v : Json.json) :
  fs file_path = inr data ->
  let o := load_json_file scan_once file_path fs in
  result o = inr v ->
  exists enc errors text attempts texts,
    decode_attempts (trace o) = attempts ++ [(enc, errors)]
    /\ parsed_texts (trace o) = texts ++ [text]
    /\ In (enc, errors) all_attempts
    /\ decode enc errors data = inr text
    /\ Json.loads scan_once text = inr v.
Proof.
  intros Hfile o Hres. subst o.
  destruct (load_json_file_cases scan_once fs file_path data Hfile)
    as [(pre & enc & post & Hs & _ & _ & Ho & Ha & Hp)|(_ & Ho & Ha & Hp)].
  - rewrite Hres in Ho. symmetry in Ho.
    destruct (attempt_returns _ _ _ _ Ho) as (text & Hd & Hl).
    exists enc, Strict, text, (map (fun x => (x, Strict)) pre),
      (decoded_texts data pre).
    rewrite Ha, Hp, map_app, decoded_texts_app.
    unfold decoded_texts at 2. cbn [flat_map map]. rewrite Hd. cbn [app].
    split; [reflexivity|]. split; [reflexivity|].
    split; [|split; [reflexivity | assumption]].
    unfold all_attempts. apply in_or_app. left.
    apply (in_map (fun x => (x, Strict))). rewrite Hs.
    apply in_or_app. right. now left.
  - rewrite Hres in Ho. rewrite Ha, Hp. unfold final_attempt in Ho |- *.
    destruct (utf_8_replace_total data) as [text Ht]. rewrite Ht in Ho |- *.
    cbn [fst snd parsed_texts] in Ho |- *.
    destruct (Json.loads scan_once text) as [e'|v'] eqn:L.
    + destruct (loads_raises _ _ _ L) as [[msg [pos ->]]|[[w|n] ->]];
        discriminate Ho.
    + injection Ho as ->.
      exists utf_8, Replace, text, (map (fun x => (x, Strict)) encodings),
        (decoded_texts data encodings).
      split; [reflexivity|]. split; [reflexivity|].
      split; [|split; assumption].
      unfold all_attempts. apply in_or_app. right. now left.
Qed.

(** X8. On a file of ASCII bytes the candidates cannot differ, and the
    loader does what [json.loads] does on the text.  When the text parses,
    its value is returned after one decoding.  When [json.loads] raises a
    [JSONDecodeError], the same text is parsed five times and that error
    is raised, with the path before its message and its position
    unchanged.  When [json.loads] raises anything else, the call raises
    it as it is, after one decoding. *)
Theorem load_json_file_ascii
    (scan_once : Json.scanner) (fs : filesystem) (file_path : string)
    (data : bytes) :
  fs file_path = inr data ->
  ascii_bytes data ->
  let text := map to_N data in
  let o := load_json_file scan_once file_path fs in
  match Json.loads scan_once text with
  | inr v =>
      o = ([EvOpen file_path ModeBinary; EvDecode utf_8 Strict; EvLoads text],
           inr v)
  | inl e =>
      if is_JSONDecodeError e then
        exists msg pos,
          e = JSONDecodeError msg text pos
          /\ result o = inl (JSONDecodeError (failed_message file_path msg) text pos)
          /\ parsed_texts (trace o) = [text; text; text; text; text]
          /\ decode_attempts (trace o) = all_attempts
      else
        o = ([EvOpen file_path ModeBinary; EvDecode utf_8 Strict; EvLoads text],
             inl e)
  end.
Proof.
  intros Hfile Hascii. cbv zeta.
  rewrite (load_json_file_run fs file_path data Hfile).
  unfold encodings, final_attempt.
  destruct (Json.loads scan_once (map to_N data)) as [e|v] eqn:L.
  - destruct (loads_raises _ _ _ L) as [[msg [pos ->]]|[l ->]].
    + cbn [is_JSONDecodeError]. exists msg, pos.
      repeat (rewrite load_json_loop_step, (decode_ascii _ _ data Hascii), L;
              cbn [caught_by_loop is_UnicodeDecodeError is_JSONDecodeError orb]).
      rewrite (decode_ascii _ _ data Hascii), L.
      cbn [load_json_loop]. unfold ret.
      cbn [trace result fst snd parsed_texts decode_attempts app].
      repeat split.
    + replace (is_JSONDecodeError (Json.limit_error l)) with false
        by (destruct l; reflexivity).
      rewrite load_json_loop_step, (decode_ascii _ _ data Hascii), L,
        limit_error_escapes.
      reflexivity.
  - rewrite load_json_loop_step, (decode_ascii _ _ data Hascii), L.
    reflexivity.
Qed.

Lemma attempt_blocks_app data a b :
  attempt_blocks data a -> attempt_blocks data b -> attempt_blocks data (a ++ b).
Proof.
  intros Ha Hb. induction Ha; cbn [app]; [exact Hb| |].
  - eapply blocks_undecoded; eassumption.
  - eapply blocks_parsed; eassumption.
Qed.

Lemma load_json_loop_blocks scan_once data encs : forall last_error fs,
  attempt_blocks data (trace (load_json_loop scan_once data encs last_error fs)).
Proof.
  induction encs as [|enc rest IH]; intros last_error fs; [constructor|].
  rewrite load_json_loop_step.
  destruct (decode enc Strict data) as [e|text] eqn:E.
  - specialize (IH (Some e) fs).
    destruct (load_json_loop scan_once data rest (Some e) fs) as [t r].
    eapply blocks_undecoded; eassumption.
  - destruct (Json.loads scan_once text) as [e|v].
    + destruct (caught_by_loop e).
      * specialize (IH (Some e) fs).
        destruct (load_json_loop scan_once data rest (Some e) fs) as [t r].
        eapply blocks_parsed; eassumption.
      * eapply blocks_parsed; [eassumption | constructor].
    + eapply blocks_parsed; [eassumption | constructor].
Qed.

Lemma final_attempt_blocks file_path data scan_once :
  attempt_blocks data (fst (final_attempt file_path data scan_once)).
Proof.
  unfold final_attempt. destruct (decode utf_8 Replace data) as [e|text] eqn:E.
  - eapply blocks_undecoded; [eassumption | constructor].
  - eapply blocks_parsed; [eassumption | constructor].
Qed.

(** X9. A call of the loader on a readable file opens the file once,
    before anything else.  What follows is a sequence of decoding attempts
    and nothing else, between one and five of them: each is one decoding
    of the bytes of the file, followed, when it gives a text and only then,
    by one call of [json.loads] on that text. *)
Theorem load_json_file_work
    (scan_once : Json.scanner) (fs : filesystem) (file_path : string)
    (data : bytes) :
  fs file_path = inr data ->
  let o := load_json_file scan_once file_path fs in
  (exists rest,
      trace o = EvOpen file_path ModeBinary :: rest
      /\ opens rest = 0%nat
      /\ attempt_blocks data rest)
  /\ (1 <= List.length (decode_attempts (trace o)) <= 5)%nat
  /\ (List.length (parsed_texts (trace o))
      <= List.length (decode_attempts (trace o)))%nat.
Proof.
  intros Hfile o. subst o.
  rewrite (load_json_file_run fs file_path data Hfile).
  pose proof (load_json_loop_run scan_once data encodings None fs) as H.
  pose proof (load_json_loop_blocks scan_once data encodings None fs) as Hb.
  cbv zeta in H.
  destruct (load_json_loop scan_once data encodings None fs) as [t r].
  cbn [trace result fst snd] in H, Hb. destruct H as (H1 & H2 & H3 & _).
  pose proof (attempted_length (attempt scan_once data) encodings) as Hlen.
  pose proof (decoded_texts_length data
                (attempted (attempt scan_once data) encodings)) as Hdl.
  assert (Hpos : (1 <= List.length (attempted (attempt scan_once data) encodings))%nat).
  { unfold encodings. cbn [attempted List.length]. lia. }
  cbn [encodings List.length] in Hlen.
  assert (Hfo : opens (fst (final_attempt file_path data scan_once)) = 0%nat
                /\ List.length (decode_attempts
                                  (fst (final_attempt file_path data scan_once)))
                   = 1%nat
                /\ (List.length (parsed_texts
                                   (fst (final_attempt file_path data scan_once)))
                    <= 1)%nat).
  { unfold final_attempt. destruct (decode utf_8 Replace data); cbn; lia. }
  destruct Hfo as (Hf1 & Hf2 & Hf3).
  destruct r as [e|[v|last]]; cbn [trace fst decode_attempts parsed_texts].
  - rewrite H1, H2, length_map. split; [eauto|]. lia.
  - rewrite H1, H2, length_map. split; [eauto|]. lia.
  - rewrite decode_attempts_app, parsed_texts_app, !length_app, H1, H2, length_map.
    split; [|lia].
    eexists. split; [reflexivity|]. split.
    + rewrite opens_app. lia.
    + apply attempt_blocks_app; [exact Hb | apply final_attempt_blocks].
Qed.

Lemma load_json_file_rejected_utf_8
    (scan_once : Json.scanner) (fs : filesystem) (file_path : string)
    (data : bytes) (e : exn) :
  fs file_path = inr data ->
  decode utf_8 Strict data = inl e ->
  let o := load_json_file scan_once file_path fs in
  (exists more,
      trace o = EvOpen file_path ModeBinary :: EvDecode utf_8 Strict
                  :: EvDecode utf_8_sig Strict :: EvDecode cp1252 Strict :: more)
  /\ (exists rest,
         parsed_texts (trace o)
         = (if existsb cp1252_undefined data
            then map to_N data else map cp1252_char data) :: rest).
Proof.
  intros Hfile Hdec o. subst o.
  destruct (utf_8_sig_rejects_what_utf_8_rejects data e Hdec) as [e' Hsig].
  rewrite (load_json_file_run fs file_path data Hfile).
  unfold encodings.
  rewrite (load_json_loop_step scan_once data utf_8), Hdec.
  rewrite (load_json_loop_step scan_once data utf_8_sig), Hsig.
  rewrite (load_json_loop_step scan_once data cp1252).
  destruct (existsb cp1252_undefined data) eqn:U.
  - destruct (charmap_decode_from_undefined data U 0%nat) as [ec Hc].
    cbn [decode]. unfold cp1252_decode. rewrite Hc.
    rewrite (load_json_loop_step scan_once data latin_1).
    cbn [decode]. unfold latin_1_decode.
    destruct (Json.loads scan_once (map to_N data)) as [el|v].
    + destruct (caught_by_loop el); cbn [load_json_loop]; unfold ret;
        cbn [trace fst parsed_texts app]; eauto.
    + cbn [trace fst parsed_texts]. eauto.
  - cbn [decode]. unfold cp1252_decode.
    rewrite (charmap_decode_from_defined data U).
    destruct (Json.loads scan_once (map cp1252_char data)) as [el|v].
    + destruct (caught_by_loop el); [|cbn [trace fst parsed_texts]; eauto].
      destruct (load_json_loop scan_once data [latin_1] (Some el) fs)
        as [t [er|[v|last]]]; cbn [trace fst parsed_texts app]; eauto.
    + cbn [trace fst parsed_texts]. eauto.
Qed.

(** X10. On bytes that are not valid UTF-8 neither UTF-8 candidate gets as
    far as the parser: the first text handed to [json.loads] is the
    Windows-1252 reading of the bytes, or their Latin-1 reading when one of
    them is undefined in Windows-1252. *)
Theorem load_json_file_not_utf_8
    (scan_once : Json.scanner) (fs : filesystem) (file_path : string)
    (data : bytes) (e : exn) :
  fs file_path = inr data ->
  decode utf_8 Strict data = inl e ->
  let o := load_json_file scan_once file_path fs in
  (exists more,
      trace o = EvOpen file_path ModeBinary :: EvDecode utf_8 Strict
                  :: EvDecode utf_8_sig Strict :: EvDecode cp1252 Strict :: more)
  /\ (exists rest,
         parsed_texts (trace o)
         = (if existsb cp1252_undefined data
            then map to_N data else map cp1252_char data) :: rest).
Proof. exact (load_json_file_rejected_utf_8 scan_once fs file_path data e). Qed.

(** ** The two functions on the same file *)

Lemma load_json_file_first_text_utf_8 scan_once fs file_path data text :
  fs file_path = inr data ->
  decode utf_8 Strict data = inr text ->
  exists rest,
    parsed_texts (trace (load_json_file scan_once file_path fs)) = text :: rest.
Proof.
  intros Hfile Hdec.
  rewrite (load_json_file_run fs file_path data Hfile).
  unfold encodings. rewrite (load_json_loop_step scan_once data utf_8), Hdec.
  destruct (Json.loads scan_once text) as [el|v].
  - destruct (caught_by_loop el); [|cbn [trace fst parsed_texts]; eauto].
    destruct (load_json_loop scan_once data [utf_8_sig; cp1252; latin_1]
                (Some el) fs) as [t [er|[v|last]]];
      cbn [trace fst parsed_texts app]; eauto.
  - cbn [trace fst parsed_texts]. eauto.
Qed.

(** X11. The two functions read the bytes alike.  Unless the file is a
    byte-order mark cut short, the first text [load_json_file] hands to the
    parser is the text [read_file] reads: [read_file] returns it with the
    newlines translated and the ends stripped. *)
Theorem readers_agree_on_text
    (scan_once : Json.scanner) (fs : filesystem) (file_path : string)
    (data : bytes) :
  fs file_path = inr data ->
  data <> [xef] -> data <> [xef; xbb] ->
  exists text rest,
    parsed_texts (trace (load_json_file scan_once file_path fs)) = text :: rest
    /\ result (read_file file_path fs) = inr (strip (universal_newlines text)).
Proof.
  intros Hfile H1 H2.
  destruct (decode utf_8 Strict data) as [e|text] eqn:Hdec.
  - destruct (load_json_file_rejected_utf_8 scan_once fs file_path data e
                Hfile Hdec) as [_ [rest Hp]].
    rewrite (read_file_not_utf_8 fs file_path data e Hfile Hdec H1 H2).
    rewrite Hp.
    destruct (existsb cp1252_undefined data); cbn [result snd]; eauto.
  - destruct (load_json_file_first_text_utf_8 scan_once fs file_path data text
                Hfile Hdec) as [rest Hp].
    rewrite (read_file_utf_8 fs file_path data text Hfile Hdec), Hp.
    cbn [result snd]. eauto.
Qed.

(** ** The further properties at concrete files *)

Lemma read_file_returns_stripped_witness :
  padded_file "hi.txt" = inr padded_hi
  /\ result (read_file "hi.txt" padded_file) = inr [104; 105]
  /\ strip [104; 105] = [104; 105].
Proof.
  destruct (read_file_returns_stripped padded_file "hi.txt" padded_hi [104; 105]
              eq_refl eq_refl) as (_ & _ & H).
  split; [reflexivity|]. split; [reflexivity | exact H].
Defined.

Lemma read_file_keeps_bom_witness :
  bom_padded_file "bom.txt" = inr (BOM_UTF8 ++ padded_hi)
  /\ decode utf_8 Strict padded_hi = inr [32; 104; 105; 10]
  /\ read_file "bom.txt" bom_padded_file
     = ([strict_open "bom.txt" utf_8], inr [BOM; 32; 104; 105]).
Proof.
  split; [reflexivity|]. split; [reflexivity|].
  exact (read_file_keeps_bom bom_padded_file "bom.txt" padded_hi
           [32; 104; 105; 10] eq_refl eq_refl).
Defined.

Lemma read_file_second_candidate_witness :
  cut_bom_file "t.txt" = inr [xef; xbb]
  /\ open_modes (trace (read_file "t.txt" cut_bom_file))
     = [ModeText utf_8 Strict; ModeText utf_8_sig Strict]
  /\ result (read_file "t.txt" cut_bom_file) = inr [].
Proof.
  destruct (read_file_second_candidate cut_bom_file "t.txt" [xef; xbb]
              eq_refl eq_refl) as [_ H].
  split; [reflexivity|]. split; [reflexivity | exact H].
Defined.

Lemma read_file_windows_or_latin_witness :
  quotes_file "q.txt" = inr quotes
  /\ decode utf_8 Strict quotes
     = inl (UnicodeDecodeError "utf-8" 0 1 "invalid start byte")
  /\ existsb cp1252_undefined quotes = false
  /\ read_file "q.txt" quotes_file
     = (map (strict_open "q.txt") [utf_8; utf_8_sig; cp1252],
        inr [0x201C; 97; 0x201D]).
Proof.
  split; [reflexivity|]. split; [reflexivity|]. split; [reflexivity|].
  exact (read_file_windows_or_latin quotes_file "q.txt" quotes _
           eq_refl eq_refl ltac:(discriminate) ltac:(discriminate)).
Defined.


Lemma load_json_file_utf_8_error_witness :
  brace_file "broken.json" = inr open_brace
  /\ decode utf_8 Strict open_brace = inr [123]
  /\ Json.loads Json.py_scan_once [123]
     = inl (JSONDecodeError "Expecting property name enclosed in double quotes"
              [123] 1)
  /\ result (load_json_file Json.py_scan_once "broken.json" brace_file)
     = inl (JSONDecodeError
              (failed_message "broken.json"
                 "Expecting property name enclosed in double quotes")
              [123] 1).
Proof.
  split; [reflexivity|]. split; [reflexivity|]. split; [reflexivity|].
  exact (f_equal inl
           (eq_sym (load_json_file_utf_8_error Json.py_scan_once brace_file
                      "broken.json" open_brace [123] _ _ _ _
                      eq_refl eq_refl eq_refl eq_refl eq_refl))).
Defined.

Lemma load_json_file_value_provenance_witness :
  bom_file "config.json" = inr bom_braces
  /\ result (load_json_file Json.py_scan_once "config.json" bom_file)
     = inr (Json.JDict [])
  /\ exists enc errors text,
       In (enc, errors) all_attempts
       /\ decode enc errors bom_braces = inr text
       /\ Json.loads Json.py_scan_once text = inr (Json.JDict []).
Proof.
  destruct (load_json_file_value_provenance Json.py_scan_once bom_file
              "config.json" bom_braces (Json.JDict []) eq_refl eq_refl)
    as (enc & errors & text & _ & _ & _ & _ & Hin & Hd & Hl).
  split; [reflexivity|]. split; [reflexivity|].
  exists enc, errors, text. auto.
Defined.

Lemma load_json_file_ascii_witness :
  brace_file "broken.json" = inr open_brace
  /\ ascii_bytes open_brace
  /\ parsed_texts (trace (load_json_file Json.py_scan_once "broken.json" brace_file))
     = [[123]; [123]; [123]; [123]; [123]].
Proof.
  pose proof (load_json_file_ascii Json.py_scan_once brace_file "broken.json"
                open_brace eq_refl ltac:(repeat constructor)) as H.
  cbv zeta in H.
  change (Json.loads Json.py_scan_once (map to_N open_brace))
    with (@inl exn Json.json
            (JSONDecodeError "Expecting property name enclosed in double quotes"
               [123] 1)) in H.
  cbn [is_JSONDecodeError] in H.
  destruct H as (msg & pos & _ & _ & H & _).
  split; [reflexivity|]. split; [repeat constructor | exact H].
Defined.

Lemma load_json_file_work_witness :
  brace_file "broken.json" = inr open_brace
  /\ (exists rest,
         trace (load_json_file Json.py_scan_once "broken.json" brace_file)
         = EvOpen "broken.json" ModeBinary :: rest
         /\ attempt_blocks open_brace rest)
  /\ (List.length (decode_attempts
                     (trace (load_json_file Json.py_scan_once "broken.json"
                               brace_file))) <= 5)%nat.
Proof.
  split; [reflexivity|].
  destruct (load_json_file_work Json.py_scan_once brace_file "broken.json"
              open_brace eq_refl) as ((rest & Ht & _ & Hb) & [_ H] & _).
  split; [exists rest; split; assumption | exact H].
Defined.

Lemma load_json_file_not_utf_8_witness :
  quotes_file "q.txt" = inr quotes
  /\ exists rest,
       parsed_texts (trace (load_json_file Json.py_scan_once "q.txt" quotes_file))
       = [0x201C; 97; 0x201D] :: rest.
Proof.
  split; [reflexivity|].
  destruct (load_json_file_not_utf_8 Json.py_scan_once quotes_file "q.txt"
              quotes _ eq_refl eq_refl) as [_ H].
  exact H.
Defined.

Lemma readers_agree_on_text_witness :
  quotes_file "q.txt" = inr quotes
  /\ exists text rest,
       parsed_texts (trace (load_json_file Json.py_scan_once "q.txt" quotes_file))
       = text :: rest
       /\ result (read_file "q.txt" quotes_file)
          = inr (strip (universal_newlines text)).
Proof.
  split; [reflexivity|].
  exact (readers_agree_on_text Json.py_scan_once quotes_file "q.txt" quotes
           eq_refl ltac:(discriminate) ltac:(discriminate)).
Defined.
